(** * GPA calculator (main.py): score resolution and weighted aggregation

    A shallow embedding of the computational core of [main.py]:
    [extract_json_objects], [parse_float_safe], [estimate_zcj_from_row],
    [extract_official_courses], [weighted_avg] and [score_to_gpa],
    followed by the properties established about them.

    Conventions of the embedding
    - a Python [str] is the list of its Unicode code points;
    - a Python [float] is an IEEE 754 binary64 value, computed with the
      standard library's executable specification [SpecFloat] at
      precision 53 and maximal exponent 1024;
    - a Python [int] is a [Z];
    - a row (a [dict] produced by [json.loads]) is a finite map from
      strings to values, and [row.get(k)] is a lookup defaulting to [None];
    - an exception caught by a [try]/[except] is an [option] or a sum. *)

From stdpp Require Import base option list gmap.
From Stdlib Require Import ZArith NArith String Ascii DecimalString Floats.SpecFloat.

Open Scope Z_scope.

(** ** Python strings *)

Module PyStr.

Abbreviation str := (list N).

(** Code points of a UTF-8 encoded literal: string literals of this file
    are byte strings, the program's are sequences of code points. *)
Fixpoint utf8_decode (bs : list N) : str :=
  match bs with
  | [] => []
  | b0 :: r0 =>
    if (b0 <? 128)%N then b0 :: utf8_decode r0
    else match r0 with
    | [] => [b0]
    | b1 :: r1 =>
      if (b0 <? 224)%N
      then ((b0 - 192) * 64 + (b1 - 128))%N :: utf8_decode r1
      else match r1 with
      | [] => [b0; b1]
      | b2 :: r2 =>
        if (b0 <? 240)%N
        then ((b0 - 224) * 4096 + (b1 - 128) * 64 + (b2 - 128))%N
               :: utf8_decode r2
        else match r2 with
        | [] => [b0; b1; b2]
        | b3 :: r3 =>
          ((b0 - 240) * 262144 + (b1 - 128) * 4096
             + (b2 - 128) * 64 + (b3 - 128))%N :: utf8_decode r3
        end
      end
    end
  end.

Definition u (s : string) : str :=
  utf8_decode ((λ a, N_of_ascii a) <$> list_ascii_of_string s).

(** [str.isspace] on one character: the white space [str.strip()]
    removes. *)
Definition is_space (c : N) : bool :=
  ((9 <=? c) && (c <=? 13) || (28 <=? c) && (c <=? 32)
   || (c =? 133) || (c =? 160) || (c =? 5760)
   || (8192 <=? c) && (c <=? 8202)
   || (c =? 8232) || (c =? 8233) || (c =? 8239) || (c =? 8287)
   || (c =? 12288))%N.

(** The white space [float()] removes around a number: the same, but for
    the four separators U+001C to U+001F. *)
Definition is_float_space (c : N) : bool :=
  is_space c && negb ((28 <=? c) && (c <=? 31))%N.

Fixpoint lstrip_by (space : N → bool) (s : str) : str :=
  match s with
  | c :: s' => if space c then lstrip_by space s' else s
  | [] => []
  end.

Definition strip_by (space : N → bool) (s : str) : str :=
  reverse (lstrip_by space (reverse (lstrip_by space s))).

(** [s.strip()] *)
Definition strip (s : str) : str := strip_by is_space s.

(** [s.lower()].  The letters A-Z are mapped to a-z.  Cased letters
    outside ASCII are left as they are: none of them lowers to a
    character of the tokens the program compares a lowered string with,
    so those comparisons are not affected. *)
Definition lower_char (c : N) : N :=
  if ((65 <=? c) && (c <=? 90))%N then (c + 32)%N else c.

Definition lower (s : str) : str := lower_char <$> s.

(** [a == b] on strings *)
Definition str_eqb (a b : str) : bool := bool_decide (a = b).

(** [str(n)] for an [int] *)
Definition str_of_int (z : Z) : str :=
  u (NilZero.string_of_int (Z.to_int z)).

End PyStr.
Export PyStr.

(** ** Python floats *)

Module PyFloat.

Abbreviation float := spec_float.

Definition prec : Z := 53.
Definition emax : Z := 1024.

Definition fadd : float → float → float := SFadd prec emax.
Definition fmul : float → float → float := SFmul prec emax.
(** [x / y]; the program only divides by a value it has tested to be
    non-zero, so [ZeroDivisionError] does not arise. *)
Definition fdiv : float → float → float := SFdiv prec emax.
Definition fle : float → float → bool := SFleb.
Definition flt : float → float → bool := SFltb.
Definition feq : float → float → bool := SFeqb.

#[global] Instance float_eq_dec : EqDecision float.
Proof. solve_decision. Defined.

Definition nan : float := S754_nan.
Definition fzero : float := S754_zero false.

Definition is_nan (x : float) : bool :=
  match x with S754_nan => true | _ => false end.

Definition is_finite (x : float) : bool :=
  match x with S754_zero _ | S754_finite _ _ _ => true | _ => false end.

(** Truth value of a float in a condition: [bool(x)] is [x != 0.0]. *)
Definition truthy (x : float) : bool := negb (feq x fzero).

(** The float nearest to the integer [z] (ties to even); an infinity
    when [z] is out of range. *)
Definition round_Z (z : Z) : float := binary_normalize prec emax z 0 false.

(** The float nearest to [m * 10^e], with the sign of [neg]: what a
    decimal literal or a decimal string denotes. *)
Definition float_of_decimal (neg : bool) (m : Z) (e : Z) : float :=
  match m * 10 ^ Z.max e 0 with
  | Zpos p =>
    fdiv (S754_finite neg p 0) (S754_finite false (Z.to_pos (10 ^ Z.max (- e) 0)) 0)
  | _ => S754_zero neg
  end.

(** [float(n)] for an [int]: [OverflowError] when out of range. *)
Definition float_of_int (z : Z) : option float :=
  match round_Z z with
  | S754_infinity _ => None
  | f => Some f
  end.

(** An [int] operand of a mixed comparison or the value of an integer
    literal that fits a float exactly. *)
Definition lit (z : Z) : float := round_Z z.

Definition is_digit (c : N) : bool := ((48 <=? c) && (c <=? 57))%N.
Definition digit_val (c : N) : Z := Z.of_N c - 48.

Definition digits_to_Z (ds : str) : Z :=
  foldl (λ acc c, 10 * acc + digit_val c) 0 ds.

(** Longest prefix of decimal digits, and the rest. *)
Fixpoint span_digits (s : str) : str * str :=
  match s with
  | c :: s' =>
    if is_digit c then let '(ds, r) := span_digits s' in (c :: ds, r)
    else ([], s)
  | [] => ([], [])
  end.

(** Underscores are accepted between two digits only, and ignored. *)
Fixpoint drop_underscores (prev : N) (s : str) : option str :=
  match s with
  | [] => if (prev =? 95)%N then None else Some []
  | c :: s' =>
    if (c =? 95)%N then
      if is_digit prev then drop_underscores c s' else None
    else if (prev =? 95)%N && negb (is_digit c) then None
    else (c ::.) <$> drop_underscores c s'
  end.

Definition parse_sign (s : str) : bool * str :=
  match s with
  | 45%N :: r => (true, r)
  | 43%N :: r => (false, r)
  | _ => (false, s)
  end.

(** The exponent part, which must reach the end of the text. *)
Definition parse_exponent (s : str) : option Z :=
  match s with
  | [] => Some 0
  | c :: s1 =>
    if ((c =? 101) || (c =? 69))%N then
      let '(neg, s2) := parse_sign s1 in
      let '(ds, rest) := span_digits s2 in
      match ds, rest with
      | _ :: _, [] => Some (if neg then - digits_to_Z ds else digits_to_Z ds)
      | _, _ => None
      end
    else None
  end.

Definition parse_number (neg : bool) (s : str) : option float :=
  let '(ip, s1) := span_digits s in
  let '(fp, s2) :=
    match s1 with
    | 46%N :: r => span_digits r
    | _ => ([], s1)
    end in
  match ip ++ fp with
  | [] => None
  | ds =>
    e ← parse_exponent s2;
    Some (float_of_decimal neg (digits_to_Z ds) (e - Z.of_nat (List.length fp)))
  end.

(** [float(s)] for a [str]; [None] stands for [ValueError].  The text is
    stripped, then read as an optional sign followed by [inf],
    [infinity], [nan] (in any case) or a decimal number with an optional
    fraction and exponent, rounded to the nearest float.  The digits read
    here are the ASCII digits; Python also reads the decimal digits of
    other scripts. *)
Definition float_of_str (s : str) : option float :=
  t ← drop_underscores 0%N (strip_by is_float_space s);
  let '(neg, r) := parse_sign t in
  let w := lower r in
  if str_eqb w (u "inf") || str_eqb w (u "infinity")
  then Some (S754_infinity neg)
  else if str_eqb w (u "nan") then Some nan
  else parse_number neg r.

End PyFloat.
Export PyFloat.

(** ** Values and rows *)

(** The values [json.loads] puts in a row.  [PyOther] is a JSON array or
    object: [float()] of it raises [TypeError], its [str()] starts with a
    bracket or a brace, it is not a [str] and equals none. *)
Inductive pyval :=
| PyNone
| PyBool (b : bool)
| PyInt (z : Z)
| PyFloat (f : float)
| PyStr (s : str)
| PyOther.

#[global] Instance pyval_eq_dec : EqDecision pyval.
Proof. solve_decision. Defined.

(** [row.get(key)] *)
Definition get (row : gmap str pyval) (key : str) : pyval :=
  default PyNone (row !! key).

(** [v == s] for a string constant [s] *)
Definition eq_str (v : pyval) (s : str) : bool :=
  match v with
  | PyStr t => str_eqb t s
  | _ => false
  end.

(** [float(v)]; [None] stands for the [TypeError], [ValueError] or
    [OverflowError] the call raises. *)
Definition py_float (v : pyval) : option float :=
  match v with
  | PyNone | PyOther => None
  | PyBool b => Some (lit (if b then 1 else 0))
  | PyInt z => float_of_int z
  | PyFloat f => Some f
  | PyStr s => float_of_str s
  end.

(** ** The grade table *)

Definition GRADE_MAP : list (str * Z) :=
  [ (u "优", 95); (u "良", 85); (u "中", 75); (u "及格", 65); (u "不及格", 55) ].

(** [d.get(k)] on a dictionary written as the list of its items *)
Fixpoint assoc {V} (d : list (str * V)) (k : str) : option V :=
  match d with
  | [] => None
  | (k', v) :: d' => if str_eqb k' k then Some v else assoc d' k
  end.

(** ** JSON extraction *)

Definition lbrace : N := 123.
Definition rbrace : N := 125.

(** [text[a:b]] for [0 <= a] and [0 <= b] *)
Definition slice (text : str) (a b : nat) : str := take (b - a) (drop a text).

(** The loop of [extract_json_objects]: [i] and [rest] are the position of
    the iteration and the characters still to come. *)
Fixpoint extract_loop (text : str) (i : nat) (rest : str)
    (objs : list str) (brace : Z) (start : option nat) : list str :=
  match rest with
  | [] => objs
  | ch :: rest' =>
    if (ch =? lbrace)%N then
      let start := if brace =? 0 then Some i else start in
      extract_loop text (S i) rest' objs (brace + 1) start
    else if (ch =? rbrace)%N then
      let brace := brace - 1 in
      match brace =? 0, start with
      | true, Some st =>
        extract_loop text (S i) rest' (objs ++ [slice text st (i + 1)]) brace None
      | _, _ => extract_loop text (S i) rest' objs brace start
      end
    else extract_loop text (S i) rest' objs brace start
  end.

Definition extract_json_objects (text : str) : list str :=
  extract_loop text 0 text [] 0 None.

(** ** Score resolution *)

Definition sentinels : list str := [ u "待评教"; u "na"; u "n/a" ].

(** [str(x).strip()] followed by the sentinel test and [float].  A float
    prints as the shortest decimal text that reads back as the same float
    and is never blank nor a sentinel; an array or object prints with a
    leading bracket or brace, which [float] rejects. *)
Definition parse_float_safe (x : pyval) : option float :=
  let parse (s : str) :=
    if str_eqb s [] || bool_decide (lower s ∈ sentinels) then None
    else float_of_str s in
  match x with
  | PyNone => None
  | PyStr t => parse (strip t)
  | PyInt z => parse (strip (str_of_int z))
  | PyBool b => parse (strip (u (if b then "True" else "False")))
  | PyFloat f => Some f
  | PyOther => None
  end.

(** The message of a result: the text and the values formatted in it. *)
Inductive reason :=
| ZCJ_present_as_numeric
| ZCJ_mapped_from_grade_label
| Missing_weight (weight_key score_key : str)
| No_component_scores
| Total_weight_invalid
| Estimated_from_components (total_weight : float).

#[global] Instance reason_eq_dec : EqDecision reason.
Proof. solve_decision. Defined.

Definition comp_names : list (str * str) :=
  [ (u "QMCJ", u "QMCJXS"); (u "PSCJ", u "PSCJXS"); (u "QZCJ", u "QZCJXS") ].

Record comp_acc := {
  total_weight : float;
  weighted_sum : float;
  have_any : bool
}.

(** The loop over [comp_names]; [inl] is its early [return]. *)
Fixpoint comp_loop (row : gmap str pyval) (names : list (str * str))
    (acc : comp_acc) : reason + comp_acc :=
  match names with
  | [] => inr acc
  | (score_key, weight_key) :: names' =>
    let s := parse_float_safe (get row score_key) in
    let w := parse_float_safe (get row weight_key) in
    match s, w with
    | None, _ => comp_loop row names' acc
    | Some _, None => inl (Missing_weight weight_key score_key)
    | Some s, Some w =>
      comp_loop row names'
        {| have_any := true;
           weighted_sum := fadd (weighted_sum acc) (fmul s w);
           total_weight := fadd (total_weight acc) w |}
    end
  end.

(** [isinstance(zcj_raw, str) and zcj_raw.strip() in GRADE_MAP], with the
    value [GRADE_MAP[zcj_raw.strip()]] *)
Definition grade_label (zcj_raw : pyval) : option Z :=
  match zcj_raw with
  | PyStr s => assoc GRADE_MAP (strip s)
  | _ => None
  end.

Definition estimate_zcj_from_row (row : gmap str pyval)
    : option float * bool * reason :=
  let zcj_raw := get row (u "ZCJ") in
  match parse_float_safe zcj_raw with
  | Some zcj_val => (Some zcj_val, false, ZCJ_present_as_numeric)
  | None =>
    match grade_label zcj_raw with
    | Some g => (Some (lit g), false, ZCJ_mapped_from_grade_label)
    | None =>
      match comp_loop row comp_names
              {| total_weight := fzero; weighted_sum := fzero; have_any := false |} with
      | inl msg => (None, true, msg)
      | inr acc =>
        if negb (have_any acc) then (None, true, No_component_scores)
        else if fle (total_weight acc) (lit 0) then (None, true, Total_weight_invalid)
        else (Some (fdiv (weighted_sum acc) (total_weight acc)), true,
              Estimated_from_components (total_weight acc))
      end
    end
  end.

(** ** Official courses *)

Record course := {
  name : pyval;
  type : pyval;
  score : float;
  credit : float;
  estimated : bool;
  estimate_reason : reason
}.

#[global] Instance course_eq_dec : EqDecision course.
Proof. solve_decision. Defined.

(** One iteration of the loop of [extract_official_courses]: the course
    appended for the row, [None] when the iteration ends in [continue]. *)
Definition official_course (r : gmap str pyval) : option course :=
  let kind := get r (u "KCXZDM_DISPLAY") in
  if negb (eq_str kind (u "必修") || eq_str kind (u "限选")) then None
  else
    match py_float (get r (u "XF")) with
    | None => None
    | Some credit =>
      if fle credit (lit 0) then None
      else
        match estimate_zcj_from_row r with
        | (None, _, _) => None
        | (Some score, is_est, msg) =>
          Some {| name := get r (u "XSKCM");
                  type := get r (u "KCXZDM_DISPLAY");
                  score := score;
                  credit := credit;
                  estimated := is_est;
                  estimate_reason := msg |}
        end
    end.

Definition extract_official_courses (rows : list (gmap str pyval)) : list course :=
  omap official_course rows.

(** ** Aggregation *)

(** [sum(xs)]: the additions from left to right, starting from 0.  From
    version 3.12 on Python adds a compensation term to the sum of several
    floats; it is zero for a list of at most one float. *)
Definition py_sum (xs : list float) : float := foldl fadd fzero xs.

Definition weighted_avg (courses : list course) : option float :=
  let s := py_sum ((λ c, fmul (score c) (credit c)) <$> courses) in
  let w := py_sum (credit <$> courses) in
  if truthy w then Some (fdiv s w) else None.

(** A decimal literal [m * 10^e] of the source *)
Definition dec (m e : Z) : float := float_of_decimal false m e.

Definition score_to_gpa (score : float) : float :=
  if fle (lit 93) score then dec 40 (-1)
  else if fle (lit 90) score then dec 37 (-1)
  else if fle (lit 87) score then dec 33 (-1)
  else if fle (lit 83) score then dec 30 (-1)
  else if fle (lit 80) score then dec 27 (-1)
  else if fle (lit 77) score then dec 23 (-1)
  else if fle (lit 73) score then dec 20 (-1)
  else if fle (lit 70) score then dec 17 (-1)
  else if fle (lit 67) score then dec 13 (-1)
  else if fle (lit 63) score then dec 10 (-1)
  else dec 0 (-1).

(** ** Core major courses *)

Definition EXCLUDE_COURSES : list str := [ u "电子信息类专业学习概论" ].

Definition CORE_KEYWORDS : list str :=
  [ u "电路"; u "信号"; u "通信"; u "电子"; u "数字"; u "模拟"; u "电磁";
    u "概率"; u "随机"; u "线性代数"; u "数学分析"; u "复变";
    u "计组"; u "计算机组织"; u "操作系统"; u "linux"; u "微机系统";
    u "无线"; u "网络" ].

(** [s.startswith(k)] *)
Fixpoint starts_with (k s : str) : bool :=
  match k, s with
  | [], _ => true
  | c :: k', d :: s' => (c =? d)%N && starts_with k' s'
  | _ :: _, [] => false
  end.

(** [k in s] for strings: [k] occurs in [s] at some position. *)
Fixpoint contains (k s : str) : bool :=
  starts_with k s
  || match s with
     | [] => false
     | _ :: s' => contains k s'
     end.

(** [is_core_major(name)] for a string [name]; the value [None] is falsy
    as the empty string is and gives [False] too.  [lower] is exact here:
    no letter outside ASCII lowers to text that completes a keyword. *)
Definition is_core_major (name : str) : bool :=
  match name with
  | [] => false
  | _ =>
    if existsb (λ ex, contains ex name) EXCLUDE_COURSES then false
    else
      let low := lower name in
      existsb (λ k, contains (lower k) low) CORE_KEYWORDS
  end.

(** ** The grade point average *)



(** ** The unused helper [parse_score] *)



(** ** Definitions used to state the properties *)

(** The key of a float that is not NaN: the class of the value, then its
    exponent, then its mantissa.  Comparisons agree with the lexicographic
    order of keys. *)
Definition key (x : float) : Z * Z * Z :=
  match x with
  | S754_nan | S754_zero _ => (0, 0, 0)
  | S754_infinity true => (-2, 0, 0)
  | S754_infinity false => (2, 0, 0)
  | S754_finite false m e => (1, e, Zpos m)
  | S754_finite true m e => (-1, - e, Zneg m)
  end.

Definition lex3 (p q : Z * Z * Z) : comparison :=
  let '(c1, a1, b1) := p in
  let '(c2, a2, b2) := q in
  match c1 ?= c2 with
  | Eq => match a1 ?= a2 with Eq => b1 ?= b2 | r => r end
  | r => r
  end.

Definition lex_le (p q : Z * Z * Z) : Prop :=
  let '(c1, a1, b1) := p in
  let '(c2, a2, b2) := q in
  c1 < c2 ∨ (c1 = c2 ∧ (a1 < a2 ∨ (a1 = a2 ∧ b1 <= b2))).

Definition lex_lt (p q : Z * Z * Z) : Prop :=
  let '(c1, a1, b1) := p in
  let '(c2, a2, b2) := q in
  c1 < c2 ∨ (c1 = c2 ∧ (a1 < a2 ∨ (a1 = a2 ∧ b1 < b2))).

(** The breakpoint table of the specification: thresholds from the highest
    down, each with its grade point; scores under every threshold get the
    default. *)
Definition gpa_breakpoints : list (float * float) :=
  [ (lit 93, dec 40 (-1)); (lit 90, dec 37 (-1)); (lit 87, dec 33 (-1));
    (lit 83, dec 30 (-1)); (lit 80, dec 27 (-1)); (lit 77, dec 23 (-1));
    (lit 73, dec 20 (-1)); (lit 70, dec 17 (-1)); (lit 67, dec 13 (-1));
    (lit 63, dec 10 (-1)) ].

Definition gpa_default : float := dec 0 (-1).

(** The grade point of the first threshold that [s] reaches. *)
Fixpoint table_lookup (tbl : list (float * float)) (default s : float) : float :=
  match tbl with
  | [] => default
  | (t, v) :: tbl' => if fle t s then v else table_lookup tbl' default s
  end.

(** The eleven grade points. *)
Definition gpa_values : list float :=
  [ dec 0 (-1); dec 10 (-1); dec 13 (-1); dec 17 (-1); dec 20 (-1); dec 23 (-1);
    dec 27 (-1); dec 30 (-1); dec 33 (-1); dec 37 (-1); dec 40 (-1) ].

(** Every threshold is strictly above the thresholds after it. *)
Fixpoint thresholds_decreasing (tbl : list (float * float)) : bool :=
  match tbl with
  | [] => true
  | (t, _) :: tbl' => forallb (λ e, flt e.1 t) tbl' && thresholds_decreasing tbl'
  end.

(** Every grade point is at least the grade points after it and the
    default. *)
Fixpoint values_decreasing (tbl : list (float * float)) (default : float) : bool :=
  match tbl with
  | [] => negb (is_nan default)
  | (_, v) :: tbl' =>
    fle default v && forallb (λ e, fle e.2 v) tbl' && values_decreasing tbl' default
  end.

(** The component pairs of a row whose score and weight both parse, as
    (score, weight), in the order of [comp_names]. *)
Definition component (row : gmap str pyval) (keys : str * str) : option (float * float) :=
  s ← parse_float_safe (get row keys.1);
  w ← parse_float_safe (get row keys.2);
  Some (s, w).

Definition components_of (row : gmap str pyval) (names : list (str * str))
    : list (float * float) :=
  omap (component row) names.

Definition components (row : gmap str pyval) : list (float * float) :=
  components_of row comp_names.

(** The sum of score * weight and the sum of the weights over component
    pairs, added from left to right starting from [start]. *)
Definition add_products (start : float) (cs : list (float * float)) : float :=
  foldl (λ acc c, fadd acc (fmul c.1 c.2)) start cs.

Definition add_weights (start : float) (cs : list (float * float)) : float :=
  foldl (λ acc c, fadd acc c.2) start cs.

Definition comp_weighted_sum (cs : list (float * float)) : float :=
  add_products fzero cs.

Definition comp_total_weight (cs : list (float * float)) : float :=
  add_weights fzero cs.

(** ** Sample rows *)

(** A row given by its items. *)
Definition row_of (items : list (string * string)) : gmap str pyval :=
  list_to_map ((λ kv, (u kv.1, PyStr (u kv.2))) <$> items).

(** No total score; the final examination has a score and a weight, the
    coursework has a score and no weight. *)
Definition row_missing_weight : gmap str pyval :=
  row_of [ ("KCXZDM_DISPLAY", "必修"); ("XF", "3"); ("XSKCM", "信号与系统");
           ("QMCJ", "90"); ("QMCJXS", "70"); ("PSCJ", "80") ]%string.

(** No total score; two components whose weights add up to 50. *)
Definition row_weights_50 : gmap str pyval :=
  row_of [ ("KCXZDM_DISPLAY", "必修"); ("XF", "3"); ("XSKCM", "电路基础");
           ("ZCJ", "待评教");
           ("QMCJ", "90"); ("QMCJXS", "30"); ("PSCJ", "80"); ("PSCJXS", "20") ]%string.

(** A numeric total score between blanks, next to components that would
    give another score. *)
Definition row_numeric : gmap str pyval :=
  row_of [ ("KCXZDM_DISPLAY", "限选"); ("XF", "2.5"); ("XSKCM", "通信原理");
           ("ZCJ", " 88.5 ");
           ("QMCJ", "60"); ("QMCJXS", "50"); ("PSCJ", "70") ]%string.

(** A grade label between blanks. *)
Definition row_label : gmap str pyval :=
  row_of [ ("KCXZDM_DISPLAY", "必修"); ("XF", "2"); ("XSKCM", "数字电路");
           ("ZCJ", " 良 "); ("QMCJ", "60"); ("QMCJXS", "50") ]%string.

(** A required course whose credit is the text [nan]. *)
Definition row_nan_credit : gmap str pyval :=
  row_of [ ("KCXZDM_DISPLAY", "必修"); ("XF", "nan"); ("XSKCM", "电磁场");
           ("ZCJ", "90") ]%string.

(** A required course whose total score is the text [nan]. *)
Definition row_nan_score : gmap str pyval :=
  row_of [ ("KCXZDM_DISPLAY", "必修"); ("XF", "3"); ("XSKCM", "电磁场");
           ("ZCJ", "nan") ]%string.

(** A required course of 3 credits with the total score 90.4. *)
Definition row_904 : gmap str pyval :=
  row_of [ ("KCXZDM_DISPLAY", "必修"); ("XF", "3"); ("XSKCM", "概率论");
           ("ZCJ", "90.4") ]%string.

(** An elective course with a valid score and credit. *)
Definition row_elective : gmap str pyval :=
  row_of [ ("KCXZDM_DISPLAY", "任选"); ("XF", "2"); ("XSKCM", "音乐鉴赏");
           ("ZCJ", "92") ]%string.

(** The whole-number scores 0..100 and the credits 0.5, 1, 1.5, .. 10. *)
Definition whole_scores : list Z := seqZ 0 101.
Definition half_credits : list Z := seqZ 1 20.

(** What [weighted_avg] computes for one course of score [s], credit [c]. *)
Definition singleton_avg (s c : float) : float :=
  fdiv (fadd fzero (fmul s c)) (fadd fzero c).

Definition exact_on_grid : Prop :=
  Forall (λ n,
    Forall (λ k, singleton_avg (lit n) (fdiv (lit k) (lit 2)) = lit n)
      half_credits)
    whole_scores.

(** ** Brace blocks *)

Definition is_brace (ch : N) : bool := ((ch =? lbrace) || (ch =? rbrace))%N.

(** A text without braces. *)
Definition brace_free (t : str) : Prop := Forall (λ ch, is_brace ch = false) t.

(** The brace depth after the character [ch] read at depth [d]. *)
Definition depth_step (d : Z) (ch : N) : Z :=
  if (ch =? lbrace)%N then d + 1
  else if (ch =? rbrace)%N then d - 1
  else d.

(** Read at depth [d], the text [s] brings the depth to 0 at its last
    character and not before. *)
Fixpoint closes_at_end (d : Z) (s : str) : bool :=
  match s with
  | [] => false
  | ch :: s' =>
    if depth_step d ch =? 0 then bool_decide (s' = [])
    else closes_at_end (depth_step d ch) s'
  end.

(** A balanced top-level brace block: an opening brace, closed by the last
    character of the text and not before; every brace character counts. *)
Definition balanced_block (o : str) : bool :=
  match o with
  | ch :: s => (ch =? lbrace)%N && closes_at_end 1 s
  | [] => false
  end.

(** ** JSON texts

    The grammar of RFC 8259, as [json.loads] reads it.  With [plain] set,
    a string literal that holds a brace character is refused. *)

Definition is_json_ws (c : N) : bool :=
  ((c =? 32) || (c =? 9) || (c =? 10) || (c =? 13))%N.

Fixpoint skip_ws (s : str) : str :=
  match s with
  | c :: r => if is_json_ws c then skip_ws r else s
  | [] => []
  end.

(** The longest prefix of characters satisfying [p], and the rest. *)
Fixpoint take_while (p : N → bool) (s : str) : str * str :=
  match s with
  | c :: r =>
    if p c then let '(w, r') := take_while p r in (c :: w, r') else ([], s)
  | [] => ([], [])
  end.

Definition is_hex (c : N) : bool :=
  (is_digit c || (65 <=? c) && (c <=? 70) || (97 <=? c) && (c <=? 102))%N.

(** A simple escape: a quote, a backslash, a slash or one of the letters
    b, f, n, r, t. *)
Definition is_escape (c : N) : bool :=
  ((c =? 34) || (c =? 92) || (c =? 47) || (c =? 98) || (c =? 102)
   || (c =? 110) || (c =? 114) || (c =? 116))%N.

Inductive string_state :=
| InString
| Escaped
| Hex (n : nat).

(** The rest of the text after a string literal, read from behind its
    opening quote. *)
Fixpoint scan_string (plain : bool) (st : string_state) (s : str) : option str :=
  match s with
  | [] => None
  | c :: r =>
    match st with
    | InString =>
      if (c =? 34)%N then Some r
      else if (c =? 92)%N then scan_string plain Escaped r
      else if (c <? 32)%N then None
      else if plain && is_brace c then None
      else scan_string plain InString r
    | Escaped =>
      if is_escape c then scan_string plain InString r
      else if (c =? 117)%N then scan_string plain (Hex 3) r
      else None
    | Hex n =>
      if is_hex c
      then scan_string plain (match n with O => InString | S n' => Hex n' end) r
      else None
    end
  end.

Definition is_number_char (c : N) : bool :=
  (is_digit c || (c =? 45) || (c =? 43) || (c =? 46) || (c =? 101) || (c =? 69))%N.

Definition is_letter (c : N) : bool := ((97 <=? c) && (c <=? 122))%N.

Definition nonempty (s : str) : bool :=
  match s with [] => false | _ => true end.

(** The number grammar: an optional minus, an integer part without a
    superfluous leading zero, an optional fraction, an optional exponent. *)
Definition valid_number (w : str) : bool :=
  let w1 := match w with 45%N :: r => r | _ => w end in
  let '(ip, r1) := span_digits w1 in
  let '(frac_ok, r2) :=
    match r1 with
    | 46%N :: r => let '(fp, r') := span_digits r in (nonempty fp, r')
    | _ => (true, r1)
    end in
  match ip with
  | [] => false
  | [_] => true
  | d :: _ => negb (d =? 48)%N
  end
  && frac_ok
  && match r2 with
     | [] => true
     | c :: r3 =>
       ((c =? 101) || (c =? 69))%N
       && let '(ep, r5) := span_digits (parse_sign r3).2 in
          nonempty ep && negb (nonempty r5)
     end.

Definition valid_literal (w : str) : bool :=
  bool_decide (w ∈ [u "true"; u "false"; u "null"]).

Inductive scan_mode :=
| Value
| Members
| Elements.

(** The rest of the text after a value, after the members of an object up
    to its closing brace, or after the elements of an array up to its
    closing bracket. *)
Fixpoint scan (plain : bool) (fuel : nat) (mode : scan_mode) (s : str) : option str :=
  match fuel with
  | O => None
  | S fuel =>
    match mode with
    | Value =>
      match s with
      | [] => None
      | c :: r =>
        if (c =? lbrace)%N then
          match skip_ws r with
          | c' :: r' =>
            if (c' =? rbrace)%N then Some r' else scan plain fuel Members (c' :: r')
          | [] => None
          end
        else if (c =? 91)%N then
          match skip_ws r with
          | c' :: r' =>
            if (c' =? 93)%N then Some r' else scan plain fuel Elements (c' :: r')
          | [] => None
          end
        else if (c =? 34)%N then scan_string plain InString r
        else if is_letter c then
          let '(w, r') := take_while is_letter s in
          if valid_literal w then Some r' else None
        else
          let '(w, r') := take_while is_number_char s in
          if valid_number w then Some r' else None
      end
    | Members =>
      match s with
      | c :: r =>
        if (c =? 34)%N then
          r1 ← scan_string plain InString r;
          match skip_ws r1 with
          | c1 :: r2 =>
            if (c1 =? 58)%N then
              r3 ← scan plain fuel Value (skip_ws r2);
              match skip_ws r3 with
              | c' :: r4 =>
                if (c' =? 44)%N then scan plain fuel Members (skip_ws r4)
                else if (c' =? rbrace)%N then Some r4
                else None
              | [] => None
              end
            else None
          | [] => None
          end
        else None
      | [] => None
      end
    | Elements =>
      r1 ← scan plain fuel Value s;
      match skip_ws r1 with
      | c' :: r2 =>
        if (c' =? 44)%N then scan plain fuel Elements (skip_ws r2)
        else if (c' =? 93)%N then Some r2
        else None
      | [] => None
      end
    end
  end.

(** A JSON object text: an object from the first character to the last. *)
Definition json_object (plain : bool) (s : str) : bool :=
  match s with
  | c :: _ =>
    (c =? lbrace)%N && bool_decide (scan plain (S (List.length s)) Value s = Some [])
  | [] => false
  end.

Definition is_json_object : str → bool := json_object false.

(** A JSON object text none of whose string literals holds a brace. *)
Definition is_plain_json_object : str → bool := json_object true.

(** A text written with ['] in place of the double quote. *)
Definition js (s : string) : str :=
  (λ c, if (c =? 39)%N then 34%N else c) <$> u s.

Definition object_brace_in_string : str := js "{'a':'}'}".
Definition object_b : str := js "{'b':1}".
Definition object_nested : str :=
  js "{'datas':{'xscjcx':{'rows':[{'XF':'3','ZCJ':'90.4'},{'XF':2,'ZCJ':null}]}}}".
Definition object_second : str :=
  js "{ 'datas' : { 'xscjcx' : { 'rows' : [ ] , 'n' : -1.5e+3 , 't' : true } } }".

(** A text that can be skipped inside a block: read at any positive depth
    it comes back to that depth without closing the block. *)
Definition neutral (w : str) : Prop :=
  ∀ d tail, 0 < d → closes_at_end d (w ++ tail) = closes_at_end d tail.

(** What [scan] has read when it succeeds: a neutral text, followed by the
    closing brace for the members of an object; a value that starts with a
    brace is a pair of braces around a neutral text. *)
Definition scanned (mode : scan_mode) (s r : str) : Prop :=
  match mode with
  | Value =>
    ∃ w, s = w ++ r ∧ neutral w
         ∧ (∀ c s', s = c :: s' → c = lbrace →
              ∃ m, w = lbrace :: m ++ [rbrace] ∧ neutral m)
  | Members => ∃ m, s = m ++ rbrace :: r ∧ neutral m
  | Elements => ∃ w, s = w ++ r ∧ neutral w
  end.

(** Texts around and between two objects. *)
Definition text_before : str := u "var a = ".
Definition text_between : str := u ";
var b = ".
Definition text_after : str := u "; // 成绩".

(** ** Further definitions used to state properties of the extractor *)

(** Read at the depth [d], the text [s] keeps the depth above 0; the depth
    at its end. *)
Fixpoint open_depth (d : Z) (s : str) : option Z :=
  match s with
  | [] => Some d
  | ch :: s' =>
    if depth_step d ch <=? 0 then None else open_depth (depth_step d ch) s'
  end.

(** The blocks of [parts], each followed by its separator. *)
Definition join_blocks (parts : list (str * str)) : str :=
  List.concat ((λ p, p.1 ++ p.2) <$> parts).

(** Blocks that are balanced, with separators that are brace-free. *)
Definition blocks_ok (parts : list (str * str)) : Prop :=
  Forall (λ p, balanced_block p.1 = true ∧ brace_free p.2) parts.

(** The state of the loop after the characters [pre]: outside an object
    the depth is not positive; inside, the object started with a brace and
    has kept the depth above 0 since. *)
Definition loop_state (pre : str) (brace : Z) (start : option nat) : Prop :=
  match start with
  | None => brace <= 0
  | Some st =>
    ∃ p body, pre = p ++ lbrace :: body ∧ List.length p = st
              ∧ open_depth 1 body = Some brace
  end.

(** What holds of an extracted span: a balanced block that is a part of the
    text. *)
Definition span_of (text o : str) : Prop :=
  balanced_block o = true ∧ ∃ p q, text = p ++ o ++ q.

Definition sample_parts : list (str * str) :=
  [ (object_nested, text_between); (object_b, u " "); (object_second, text_after) ].

(** What follows the opening brace of an object that is not closed. *)
Definition unclosed_rest : str := js "'datas':{'xscjcx':{'rows':[{'XF':'3'}]}".

(** A text with a closing brace that closes nothing, an object and an
    opening brace that is not closed. *)
Definition text_unbalanced : str := js "} {'a':{'b':1}} {".

(** The objects nested in an object, each with the text that follows it
    inside the object. *)
Definition nested_parts : list (str * str) :=
  [ (js "{'xscjcx':{'rows':[]}}", js ",'n':"); (object_b, []) ].

(** ** Further definitions used to state properties of the resolver *)

(** The fields the resolver reads. *)
Definition resolver_keys : list str :=
  u "ZCJ" :: flat_map (λ p, [p.1; p.2]) comp_names.

(** What the parts of a result have to do with each other. *)
Definition result_coherent (row : gmap str pyval)
    (res : option float * bool * reason) : Prop :=
  let '(sc, est, msg) := res in
  match msg with
  | ZCJ_present_as_numeric =>
    est = false ∧ is_Some sc ∧ sc = parse_float_safe (get row (u "ZCJ"))
  | ZCJ_mapped_from_grade_label =>
    est = false ∧ ∃ g, grade_label (get row (u "ZCJ")) = Some g ∧ sc = Some (lit g)
  | Missing_weight wk sk =>
    est = true ∧ sc = None ∧ (sk, wk) ∈ comp_names
  | No_component_scores | Total_weight_invalid =>
    est = true ∧ sc = None
  | Estimated_from_components tw =>
    est = true ∧ is_Some sc ∧ fle tw (lit 0) = false
  end.

(** No total score and no component score. *)
Definition row_no_scores : gmap str pyval :=
  row_of [ ("KCXZDM_DISPLAY", "必修"); ("XF", "3"); ("XSKCM", "电路基础");
           ("ZCJ", "待评教"); ("QMCJXS", "70"); ("PSCJ", "n/a") ]%string.

(** No total score; two components whose weights cancel. *)
Definition row_weights_cancel : gmap str pyval :=
  row_of [ ("KCXZDM_DISPLAY", "必修"); ("XF", "3"); ("XSKCM", "电路基础");
           ("QMCJ", "90"); ("QMCJXS", "50"); ("PSCJ", "80"); ("PSCJXS", "-50") ]%string.

(** The row [row_weights_50] with another name, credit and category. *)
Definition row_weights_50_renamed : gmap str pyval :=
  row_of [ ("KCXZDM_DISPLAY", "任选"); ("XF", "0"); ("XSKCM", "其他");
           ("ZCJ", "待评教");
           ("QMCJ", "90"); ("QMCJXS", "30"); ("PSCJ", "80"); ("PSCJXS", "20") ]%string.

(** The grade points of the grade labels. *)
Definition label_points : list (str * Z) :=
  [ (u "优", 40); (u "良", 30); (u "中", 20); (u "及格", 10); (u "不及格", 0) ].

(** ** Further definitions used to state properties of the course filter *)

(** A row that the loop of [extract_official_courses] passes over: its
    category is not one of the two, [float] does not read its credit, its
    credit is [<= 0], or the resolver finds no score. *)
Definition passed_over (r : gmap str pyval) : Prop :=
  (eq_str (get r (u "KCXZDM_DISPLAY")) (u "必修") = false
   ∧ eq_str (get r (u "KCXZDM_DISPLAY")) (u "限选") = false)
  ∨ py_float (get r (u "XF")) = None
  ∨ (∃ c, py_float (get r (u "XF")) = Some c ∧ fle c (lit 0) = true)
  ∨ (estimate_zcj_from_row r).1.1 = None.

(** A required course with the credit 0. *)
Definition row_zero_credit : gmap str pyval :=
  row_of [ ("KCXZDM_DISPLAY", "必修"); ("XF", "0"); ("XSKCM", "形势与政策");
           ("ZCJ", "88") ]%string.

(** ** Further definitions used to state properties of the classifier and
    of the grade point average *)

(** A character that is not an ASCII letter. *)
Definition not_letter (c : N) : bool :=
  negb (((65 <=? c) && (c <=? 90)) || ((97 <=? c) && (c <=? 122)))%N.


Definition sample_courses : list course :=
  extract_official_courses [row_904; row_label; row_weights_50; row_numeric].

(** ** Further definitions used to state properties of the number parser *)



(** * Properties *)

(** ** The order of floats *)

Section FloatOrder.

Lemma SFcompare_key x y :
  is_nan x = false → is_nan y = false →
  SFcompare x y = Some (lex3 (key x) (key y)).
Proof.
  intros Hx Hy.
  destruct x as [[]|[]| |[] mx ex], y as [[]|[]| |[] my ey];
    try discriminate; try reflexivity; cbn.
  rewrite Z.compare_opp, (Z.compare_antisym ex ey).
  destruct (ex ?= ey); reflexivity.
Qed.

Lemma lex3_le p q : lex3 p q ≠ Gt ↔ lex_le p q.
Proof.
  destruct p as [[c1 a1] b1], q as [[c2 a2] b2]; cbn.
  destruct (Z.compare_spec c1 c2), (Z.compare_spec a1 a2),
    (Z.compare_spec b1 b2); split; intros Hcmp; try congruence; lia.
Qed.

Lemma lex3_lt p q : lex3 p q = Lt ↔ lex_lt p q.
Proof.
  destruct p as [[c1 a1] b1], q as [[c2 a2] b2]; cbn.
  destruct (Z.compare_spec c1 c2), (Z.compare_spec a1 a2),
    (Z.compare_spec b1 b2); split; intros Hcmp; try congruence; lia.
Qed.

Lemma fle_spec x y :
  fle x y = true ↔ is_nan x = false ∧ is_nan y = false ∧ lex_le (key x) (key y).
Proof.
  unfold fle, SFleb.
  destruct (is_nan x) eqn:Hx.
  { destruct x; try discriminate. cbn. split; [discriminate | intros (? & _); discriminate]. }
  destruct (is_nan y) eqn:Hy.
  { destruct y; try discriminate.
    replace (SFcompare x S754_nan) with (@None comparison) by (now destruct x).
    split; [discriminate | intros (_ & ? & _); discriminate]. }
  rewrite (SFcompare_key x y Hx Hy), <- lex3_le.
  destruct (lex3 (key x) (key y)); split; intros H;
    try discriminate; try done; try (split; [done | split; done]).
  now destruct H as (_ & _ & H).
Qed.

Lemma flt_spec x y :
  flt x y = true ↔ is_nan x = false ∧ is_nan y = false ∧ lex_lt (key x) (key y).
Proof.
  unfold flt, SFltb.
  destruct (is_nan x) eqn:Hx.
  { destruct x; try discriminate. cbn. split; [discriminate | intros (? & _); discriminate]. }
  destruct (is_nan y) eqn:Hy.
  { destruct y; try discriminate.
    replace (SFcompare x S754_nan) with (@None comparison) by (now destruct x).
    split; [discriminate | intros (_ & ? & _); discriminate]. }
  rewrite (SFcompare_key x y Hx Hy), <- lex3_lt.
  destruct (lex3 (key x) (key y)); split; intros H;
    try discriminate; try done; try (split; [done | split; done]).
  all: now destruct H as (_ & _ & H).
Qed.

Lemma fle_trans x y z : fle x y = true → fle y z = true → fle x z = true.
Proof.
  rewrite !fle_spec. intros (Hx & _ & Hxy) (_ & Hz & Hyz).
  split; [done | split; [done |]].
  destruct (key x) as [[c1 a1] b1], (key y) as [[c2 a2] b2],
    (key z) as [[c3 a3] b3]; cbn in *; lia.
Qed.

Lemma fle_refl x : is_nan x = false → fle x x = true.
Proof.
  intros Hx. apply fle_spec. split; [done | split; [done |]].
  destruct (key x) as [[c a] b]; cbn; lia.
Qed.

(** [x < y] excludes [y <= x] *)
Lemma flt_not_fle x y : flt x y = true → fle y x = false.
Proof.
  intros H. apply not_true_is_false. revert H.
  rewrite flt_spec, fle_spec. intros (_ & _ & Hlt) (_ & _ & Hle).
  destruct (key x) as [[c1 a1] b1], (key y) as [[c2 a2] b2]; cbn in *; lia.
Qed.

(** Below a breakpoint is below every higher breakpoint. *)
Lemma flt_fle_above s t t' :
  flt s t = true → fle t t' = true → fle t' s = false.
Proof.
  intros Hlt Hle. apply not_true_is_false. intros H.
  pose proof (fle_trans _ _ _ Hle H) as H'.
  now rewrite (flt_not_fle _ _ Hlt) in H'.
Qed.

(** When neither operand is NaN, [x <= y] fails exactly when [y < x]. *)
Lemma fle_false_flt x y :
  is_nan x = false → is_nan y = false → fle x y = false → flt y x = true.
Proof.
  intros Hx Hy H. apply flt_spec. split; [done | split; [done |]].
  apply not_true_iff_false in H. rewrite fle_spec in H.
  destruct (key x) as [[c1 a1] b1], (key y) as [[c2 a2] b2]; cbn in *.
  destruct (decide (c1 < c2 ∨ c1 = c2 ∧ (a1 < a2 ∨ a1 = a2 ∧ b1 <= b2))) as [Hd|Hd].
  - exfalso. apply H. done.
  - lia.
Qed.

End FloatOrder.

(** ** The grade point table *)

Section BreakpointTable.

Implicit Types (tbl : list (float * float)) (d s t v : float).

Lemma flt_fle x y : flt x y = true → fle x y = true.
Proof.
  rewrite flt_spec, fle_spec. intros (Hx & Hy & H).
  split; [done | split; [done |]].
  destruct (key x) as [[c1 a1] b1], (key y) as [[c2 a2] b2]; cbn in *; lia.
Qed.

Lemma fle_not_nan_l x y : fle x y = true → is_nan x = false.
Proof. rewrite fle_spec. now intros (? & _). Qed.

Lemma fle_not_nan_r x y : fle x y = true → is_nan y = false.
Proof. rewrite fle_spec. now intros (_ & ? & _). Qed.

(** The result of a lookup is a grade point of the table or the default. *)
Lemma table_lookup_cases tbl d s :
  table_lookup tbl d s = d ∨ ∃ t, (t, table_lookup tbl d s) ∈ tbl.
Proof.
  induction tbl as [|[t v] tbl IH]; cbn; [now left |].
  destruct (fle t s).
  - right. exists t. constructor.
  - destruct IH as [-> | [t' Ht']]; [now left |].
    right. exists t'. now constructor.
Qed.

(** At a threshold itself the lookup gives the grade point of that
    threshold. *)
Lemma table_lookup_at tbl d i t v :
  thresholds_decreasing tbl = true →
  tbl !! i = Some (t, v) →
  is_nan t = false →
  table_lookup tbl d t = v.
Proof.
  revert i. induction tbl as [|[t0 v0] tbl IH]; intros i Hdec Hi Ht; [done |].
  cbn in Hdec. apply andb_prop in Hdec as [Hhd Htl].
  destruct i as [|i]; cbn in *.
  - injection Hi as -> ->. now rewrite fle_refl.
  - rewrite forallb_forall in Hhd.
    assert (flt t t0 = true) as Hlt.
    { apply (Hhd (t, v)). apply list_elem_of_In. eapply list_elem_of_lookup_2, Hi. }
    rewrite (flt_not_fle _ _ Hlt). eauto.
Qed.

(** Between two consecutive thresholds the lookup gives the grade point
    of the lower one. *)
Lemma table_lookup_between tbl d i t v t' v' s :
  thresholds_decreasing tbl = true →
  tbl !! i = Some (t, v) →
  tbl !! S i = Some (t', v') →
  fle t' s = true → flt s t = true →
  table_lookup tbl d s = v'.
Proof.
  revert i. induction tbl as [|[t0 v0] tbl IH]; intros i Hdec Hi HSi Hge Hlt; [done |].
  cbn in Hdec. apply andb_prop in Hdec as [Hhd Htl].
  destruct i as [|i]; cbn in *.
  - injection Hi as -> ->. rewrite (flt_not_fle _ _ Hlt).
    destruct tbl as [|[t1 v1] tbl]; [done |].
    cbn in *. injection HSi as -> ->. now rewrite Hge.
  - rewrite forallb_forall in Hhd.
    assert (flt t t0 = true) as Ht.
    { apply (Hhd (t, v)). apply list_elem_of_In. eapply list_elem_of_lookup_2, Hi. }
    rewrite (flt_fle_above s t t0 Hlt (flt_fle _ _ Ht)). eauto.
Qed.

(** Under the last threshold the lookup gives the default. *)
Lemma table_lookup_below tbl d t v s :
  thresholds_decreasing tbl = true →
  last tbl = Some (t, v) →
  flt s t = true →
  table_lookup tbl d s = d.
Proof.
  induction tbl as [|[t0 v0] tbl IH]; intros Hdec Hlast Hlt; [done |].
  cbn in Hdec. apply andb_prop in Hdec as [Hhd Htl].
  destruct tbl as [|e tbl].
  - cbn in *. injection Hlast as -> ->. now rewrite (flt_not_fle _ _ Hlt).
  - assert (last (e :: tbl) = Some (t, v)) as Hl by exact Hlast.
    rewrite forallb_forall in Hhd.
    assert (flt t t0 = true) as Ht.
    { apply (Hhd (t, v)). apply list_elem_of_In.
      apply last_Some in Hl as [l' ->]. set_solver. }
    change (table_lookup ((t0, v0) :: e :: tbl) d s)
      with (if fle t0 s then v0 else table_lookup (e :: tbl) d s).
    rewrite (flt_fle_above s t t0 Hlt (flt_fle _ _ Ht)). eauto.
Qed.

(** A lookup in a table of decreasing grade points is monotone. *)
Lemma table_lookup_mono tbl d a b :
  values_decreasing tbl d = true →
  fle a b = true →
  fle (table_lookup tbl d a) (table_lookup tbl d b) = true.
Proof.
  intros Hval Hab. induction tbl as [|[t v] tbl IH]; cbn in *.
  - apply fle_refl. now apply negb_true_iff.
  - apply andb_prop in Hval as [Hval Htl]. apply andb_prop in Hval as [Hd Hhd].
    destruct (fle t a) eqn:Hta.
    + rewrite (fle_trans _ _ _ Hta Hab). apply fle_refl. eapply fle_not_nan_r, Hd.
    + destruct (fle t b); [| now apply IH].
      destruct (table_lookup_cases tbl d a) as [-> | [t' Ht']]; [done |].
      rewrite forallb_forall in Hhd.
      apply (Hhd (t', table_lookup tbl d a)). now apply list_elem_of_In.
Qed.

Lemma score_to_gpa_lookup s :
  score_to_gpa s = table_lookup gpa_breakpoints gpa_default s.
Proof. reflexivity. Qed.

Lemma gpa_breakpoints_decreasing : thresholds_decreasing gpa_breakpoints = true.
Proof. vm_compute. reflexivity. Qed.

Lemma gpa_values_decreasing : values_decreasing gpa_breakpoints gpa_default = true.
Proof. vm_compute. reflexivity. Qed.

End BreakpointTable.

(** C6.  [score_to_gpa] is the lookup in the breakpoint table (93 gives 4.0,
    90 gives 3.7, 87 gives 3.3, 83 gives 3.0, 80 gives 2.7, 77 gives 2.3,
    73 gives 2.0, 70 gives 1.7, 67 gives 1.3, 63 gives 1.0, anything lower
    0.0), taken from the highest threshold down.  It is constant on each
    tier and continuous from the right at each breakpoint: a score equal to
    a threshold gets the grade point of that threshold, a score strictly
    under a threshold and at least the next one gets the grade point of the
    next one, a score of at least 93 gets 4.0 and a score under 63 gets 0.0.
    In particular 93.0 gives 4.0 and 92.999 gives 3.7. *)
Theorem score_to_gpa_breakpoints :
  (∀ s, score_to_gpa s = table_lookup gpa_breakpoints gpa_default s)
  ∧ gpa_breakpoints =
      [ (lit 93, dec 40 (-1)); (lit 90, dec 37 (-1)); (lit 87, dec 33 (-1));
        (lit 83, dec 30 (-1)); (lit 80, dec 27 (-1)); (lit 77, dec 23 (-1));
        (lit 73, dec 20 (-1)); (lit 70, dec 17 (-1)); (lit 67, dec 13 (-1));
        (lit 63, dec 10 (-1)) ]
  ∧ gpa_default = dec 0 (-1)
  ∧ (∀ i t v, gpa_breakpoints !! i = Some (t, v) → score_to_gpa t = v)
  ∧ (∀ i t v t' v' s,
        gpa_breakpoints !! i = Some (t, v) →
        gpa_breakpoints !! S i = Some (t', v') →
        fle t' s = true → flt s t = true →
        score_to_gpa s = v')
  ∧ (∀ s, fle (lit 93) s = true → score_to_gpa s = dec 40 (-1))
  ∧ (∀ s, flt s (lit 63) = true → score_to_gpa s = dec 0 (-1))
  ∧ score_to_gpa (dec 930 (-1)) = dec 40 (-1)
  ∧ score_to_gpa (dec 92999 (-3)) = dec 37 (-1).
Proof.
  split; [exact score_to_gpa_lookup |].
  split; [reflexivity |]. split; [reflexivity |].
  split; [| split; [| split; [| split; [| split]]]].
  - intros i t v Hi. rewrite score_to_gpa_lookup.
    apply (table_lookup_at _ _ i); [exact gpa_breakpoints_decreasing | exact Hi |].
    apply list_elem_of_lookup_2 in Hi.
    unfold gpa_breakpoints in Hi.
    repeat (apply elem_of_cons in Hi as [Hi | Hi];
            [injection Hi as -> _; vm_compute; reflexivity |]).
    now apply elem_of_nil in Hi.
  - intros i t v t' v' s Hi HSi Hge Hlt. rewrite score_to_gpa_lookup.
    exact (table_lookup_between _ _ i t v t' v' s
             gpa_breakpoints_decreasing Hi HSi Hge Hlt).
  - intros s Hs. unfold score_to_gpa. now rewrite Hs.
  - intros s Hs. rewrite score_to_gpa_lookup.
    apply (table_lookup_below _ _ (lit 63) (dec 10 (-1)));
      [exact gpa_breakpoints_decreasing | reflexivity | exact Hs].
  - vm_compute. reflexivity.
  - vm_compute. reflexivity.
Qed.

(** The tier under the breakpoint 93, at the score 92.999. *)
Lemma score_to_gpa_breakpoints_witness :
  score_to_gpa (dec 92999 (-3)) = dec 37 (-1).
Proof.
  destruct score_to_gpa_breakpoints as (_ & _ & _ & _ & Hbetween & _).
  apply (Hbetween 0%nat (lit 93) (dec 40 (-1)) (lit 90) (dec 37 (-1)));
    vm_compute; reflexivity.
Defined.

(** C10.  [score_to_gpa] is defined on every float, it is monotone (when
    [a <= b] the grade point of [a] is at most that of [b]), and its result
    is one of the eleven grade points 0.0, 1.0, 1.3, 1.7, 2.0, 2.3, 2.7,
    3.0, 3.3, 3.7, 4.0, whatever the input: out of the range 0-100,
    infinite or NaN. *)
Theorem score_to_gpa_monotone_range :
  (∀ a b, fle a b = true → fle (score_to_gpa a) (score_to_gpa b) = true)
  ∧ (∀ s, score_to_gpa s ∈ gpa_values).
Proof.
  split.
  - intros a b Hab. rewrite !score_to_gpa_lookup.
    apply table_lookup_mono; [exact gpa_values_decreasing | exact Hab].
  - intros s. unfold score_to_gpa, gpa_values.
    repeat (destruct (fle _ s); [set_solver |]). set_solver.
Qed.

(** Two scores on either side of the breakpoint 90. *)
Lemma score_to_gpa_monotone_range_witness :
  fle (score_to_gpa (dec 895 (-1))) (score_to_gpa (dec 904 (-1))) = true.
Proof.
  apply (proj1 score_to_gpa_monotone_range (dec 895 (-1)) (dec 904 (-1))).
  vm_compute. reflexivity.
Defined.

(** ** The score resolver *)

Section Resolver.

Implicit Types (row : gmap str pyval) (names : list (str * str)).

(** A present score without a weight ends the loop, whatever the other
    pairs and whatever was accumulated; the pair reported is one with a
    score and no weight. *)
Lemma comp_loop_missing row names acc sk wk s :
  (sk, wk) ∈ names →
  parse_float_safe (get row sk) = Some s →
  parse_float_safe (get row wk) = None →
  ∃ sk' wk',
    (sk', wk') ∈ names
    ∧ is_Some (parse_float_safe (get row sk'))
    ∧ parse_float_safe (get row wk') = None
    ∧ comp_loop row names acc = inl (Missing_weight wk' sk').
Proof.
  intros Hin Hs Hw. revert acc.
  induction names as [|[sk0 wk0] names IH]; intros acc.
  { now apply elem_of_nil in Hin. }
  cbn [comp_loop].
  destruct (parse_float_safe (get row sk0)) as [s0|] eqn:Hs0.
  - destruct (parse_float_safe (get row wk0)) as [w0|] eqn:Hw0.
    + apply elem_of_cons in Hin as [Heq | Hin].
      * injection Heq as -> ->. congruence.
      * destruct (IH Hin
          {| total_weight := fadd (total_weight acc) w0;
             weighted_sum := fadd (weighted_sum acc) (fmul s0 w0);
             have_any := true |}) as (sk' & wk' & Hin' & Hs' & Hw' & Hloop).
        exists sk', wk'. split; [now apply list_elem_of_further |]. done.
    + exists sk0, wk0. split; [apply list_elem_of_here |].
      split; [now rewrite Hs0 |]. done.
  - apply elem_of_cons in Hin as [Heq | Hin].
    + injection Heq as -> ->. congruence.
    + destruct (IH Hin acc) as (sk' & wk' & Hin' & Hs' & Hw' & Hloop).
      exists sk', wk'. split; [now apply list_elem_of_further |]. done.
Qed.

(** When every present score has a weight the loop runs to its end and has
    accumulated the present pairs. *)
Lemma comp_loop_complete row names acc :
  (∀ sk wk, (sk, wk) ∈ names →
     is_Some (parse_float_safe (get row sk)) →
     is_Some (parse_float_safe (get row wk))) →
  comp_loop row names acc =
    inr {| total_weight := add_weights (total_weight acc) (components_of row names);
           weighted_sum := add_products (weighted_sum acc) (components_of row names);
           have_any := have_any acc
                       || bool_decide (components_of row names ≠ []) |}.
Proof.
  revert acc. induction names as [|[sk0 wk0] names IH]; intros acc Hall.
  { cbn. destruct acc as [tw ws [|]]; reflexivity. }
  cbn [comp_loop]. unfold components_of. cbn [omap list_omap].
  assert (∀ sk wk, (sk, wk) ∈ names →
     is_Some (parse_float_safe (get row sk)) →
     is_Some (parse_float_safe (get row wk))) as Hall'.
  { intros sk wk Hin. apply Hall. now apply list_elem_of_further. }
  destruct (parse_float_safe (get row sk0)) as [s0|] eqn:Hs0.
  - destruct (Hall sk0 wk0 (list_elem_of_here _ _)) as [w0 Hw0]; [now rewrite Hs0 |].
    rewrite Hw0.
    assert (component row (sk0, wk0) = Some (s0, w0)) as ->.
    { unfold component. cbn. now rewrite Hs0, Hw0. }
    rewrite (IH _ Hall'). cbn.
    now rewrite orb_true_r.
  - assert (component row (sk0, wk0) = None) as ->.
    { unfold component. cbn. now rewrite Hs0. }
    apply (IH _ Hall').
Qed.

Lemma have_any_components row :
  (∃ sk wk s w, (sk, wk) ∈ comp_names
     ∧ parse_float_safe (get row sk) = Some s
     ∧ parse_float_safe (get row wk) = Some w) →
  components row ≠ [].
Proof.
  intros (sk & wk & s & w & Hin & Hs & Hw) Hnil.
  assert (component row (sk, wk) = Some (s, w)) as Hc.
  { unfold component. cbn. now rewrite Hs, Hw. }
  assert ((s, w) ∈ components row) as Hel.
  { apply list_elem_of_omap. now exists (sk, wk). }
  rewrite Hnil in Hel. now apply elem_of_nil in Hel.
Qed.

Lemma estimate_unfold row :
  estimate_zcj_from_row row =
  match parse_float_safe (get row (u "ZCJ")) with
  | Some zcj_val => (Some zcj_val, false, ZCJ_present_as_numeric)
  | None =>
    match grade_label (get row (u "ZCJ")) with
    | Some g => (Some (lit g), false, ZCJ_mapped_from_grade_label)
    | None =>
      match comp_loop row comp_names
              {| total_weight := fzero; weighted_sum := fzero; have_any := false |} with
      | inl msg => (None, true, msg)
      | inr acc =>
        if negb (have_any acc) then (None, true, No_component_scores)
        else if fle (total_weight acc) (lit 0) then (None, true, Total_weight_invalid)
        else (Some (fdiv (weighted_sum acc) (total_weight acc)), true,
              Estimated_from_components (total_weight acc))
      end
    end
  end.
Proof. reflexivity. Qed.

End Resolver.

(** C1.  When the ZCJ field of a row neither parses as a number nor is a
    grade label, and some component score parses while its weight does not,
    the resolver returns no score, flagged as estimated, with the reason
    that a weight is missing for a present component, whatever the other
    component pairs hold.  The pair named in the reason is one whose score
    parses and whose weight does not. *)
Theorem estimate_missing_weight (row : gmap str pyval) (sk wk : str) (s : float) :
  parse_float_safe (get row (u "ZCJ")) = None →
  grade_label (get row (u "ZCJ")) = None →
  (sk, wk) ∈ comp_names →
  parse_float_safe (get row sk) = Some s →
  parse_float_safe (get row wk) = None →
  ∃ sk' wk',
    (sk', wk') ∈ comp_names
    ∧ is_Some (parse_float_safe (get row sk'))
    ∧ parse_float_safe (get row wk') = None
    ∧ estimate_zcj_from_row row = (None, true, Missing_weight wk' sk').
Proof.
  intros Hzcj Hlabel Hin Hs Hw.
  destruct (comp_loop_missing row comp_names
              {| total_weight := fzero; weighted_sum := fzero; have_any := false |}
              sk wk s Hin Hs Hw) as (sk' & wk' & Hin' & Hs' & Hw' & Hloop).
  exists sk', wk'. repeat (split; [done |]).
  now rewrite estimate_unfold, Hzcj, Hlabel, Hloop.
Qed.

(** C2.  When the ZCJ field of a row neither parses as a number nor is a
    grade label, every component score that parses has a weight that
    parses, at least one pair has both, and the sum of the weights is
    positive, the resolver returns the weighted sum of the scores divided
    by the sum of the weights, flagged as estimated: the weights are
    normalized by their own total, whatever it is, not by 100. *)
Theorem estimate_normalized_mean (row : gmap str pyval) :
  parse_float_safe (get row (u "ZCJ")) = None →
  grade_label (get row (u "ZCJ")) = None →
  (∀ sk wk, (sk, wk) ∈ comp_names →
     is_Some (parse_float_safe (get row sk)) →
     is_Some (parse_float_safe (get row wk))) →
  (∃ sk wk s w, (sk, wk) ∈ comp_names
     ∧ parse_float_safe (get row sk) = Some s
     ∧ parse_float_safe (get row wk) = Some w) →
  flt (lit 0) (comp_total_weight (components row)) = true →
  estimate_zcj_from_row row =
    (Some (fdiv (comp_weighted_sum (components row))
                (comp_total_weight (components row))),
     true,
     Estimated_from_components (comp_total_weight (components row))).
Proof.
  intros Hzcj Hlabel Hall Hany Hpos.
  rewrite estimate_unfold, Hzcj, Hlabel, (comp_loop_complete _ _ _ Hall).
  cbn [have_any total_weight weighted_sum orb].
  fold (components row).
  rewrite (bool_decide_eq_true_2 _ (have_any_components row Hany)).
  cbn [negb].
  fold (comp_total_weight (components row)).
  now rewrite (flt_not_fle _ _ Hpos).
Qed.

Lemma estimate_missing_weight_witness :
  ∃ sk' wk',
    (sk', wk') ∈ comp_names
    ∧ is_Some (parse_float_safe (get row_missing_weight sk'))
    ∧ parse_float_safe (get row_missing_weight wk') = None
    ∧ estimate_zcj_from_row row_missing_weight = (None, true, Missing_weight wk' sk').
Proof.
  apply (estimate_missing_weight row_missing_weight (u "PSCJ") (u "PSCJXS") (lit 80)).
  - vm_compute. reflexivity.
  - vm_compute. reflexivity.
  - apply (bool_decide_unpack _). vm_compute. exact I.
  - vm_compute. reflexivity.
  - vm_compute. reflexivity.
Defined.

Lemma estimate_normalized_mean_witness :
  estimate_zcj_from_row row_weights_50 =
    (Some (lit 86), true, Estimated_from_components (lit 50))
  ∧ fdiv (comp_weighted_sum (components row_weights_50)) (lit 100) = lit 43.
Proof.
  split; [| vm_compute; reflexivity].
  rewrite (estimate_normalized_mean row_weights_50).
  - vm_compute. reflexivity.
  - vm_compute. reflexivity.
  - vm_compute. reflexivity.
  - intros sk wk Hin Hs.
    unfold comp_names in Hin.
    apply elem_of_cons in Hin as [Hin | Hin].
    { injection Hin as -> ->. exists (lit 30). vm_compute. reflexivity. }
    apply elem_of_cons in Hin as [Hin | Hin].
    { injection Hin as -> ->. exists (lit 20). vm_compute. reflexivity. }
    apply elem_of_cons in Hin as [Hin | Hin]; [| now apply elem_of_nil in Hin].
    injection Hin as -> ->. destruct Hs as [s Hs]. vm_compute in Hs. discriminate Hs.
  - exists (u "QMCJ"), (u "QMCJXS"), (lit 90), (lit 30).
    split; [apply (bool_decide_unpack _); vm_compute; exact I |].
    split; vm_compute; reflexivity.
  - vm_compute. reflexivity.
Defined.

(** Case analysis on whether the string [t] is the label [l]: a label is
    settled by evaluation, otherwise the test in [Hg] fails. *)
Ltac label_case l t Hg :=
  let Hne := fresh "Hne" in
  destruct (decide (l = t)) as [<- | Hne];
    [vm_compute; reflexivity | rewrite (bool_decide_eq_false_2 _ Hne) in Hg].

(** The grade labels are not numbers. *)
Lemma parse_float_safe_label s g :
  assoc GRADE_MAP (strip s) = Some g → parse_float_safe (PyStr s) = None.
Proof.
  unfold parse_float_safe. generalize (strip s). intros t Hg.
  unfold GRADE_MAP in Hg. cbn [assoc] in Hg. unfold str_eqb at 1 2 3 4 5 in Hg.
  label_case (u "优") t Hg. label_case (u "良") t Hg. label_case (u "中") t Hg.
  label_case (u "及格") t Hg. label_case (u "不及格") t Hg.
  discriminate Hg.
Qed.

(** C4.  When the ZCJ field of a row parses as a number, the resolver
    returns that number, not flagged as estimated, whatever the other
    fields hold.  For a string this is the case when the string without
    its surrounding white space is not empty, is not one of the tokens
    待评教, na and n/a in any case, and [float] reads it as a number [v]:
    the result is [v]. *)
Theorem estimate_numeric_zcj (row : gmap str pyval) :
  (∀ v, parse_float_safe (get row (u "ZCJ")) = Some v →
        estimate_zcj_from_row row = (Some v, false, ZCJ_present_as_numeric))
  ∧ (∀ s v, get row (u "ZCJ") = PyStr s →
        strip s ≠ [] →
        lower (strip s) ∉ sentinels →
        float_of_str (strip s) = Some v →
        estimate_zcj_from_row row = (Some v, false, ZCJ_present_as_numeric)).
Proof.
  assert (∀ v, parse_float_safe (get row (u "ZCJ")) = Some v →
        estimate_zcj_from_row row = (Some v, false, ZCJ_present_as_numeric)) as Hnum.
  { intros v Hv. now rewrite estimate_unfold, Hv. }
  split; [exact Hnum |].
  intros s v Hget Hne Hsent Hfloat. apply Hnum.
  rewrite Hget. unfold parse_float_safe, str_eqb.
  rewrite (bool_decide_eq_false_2 _ Hne), (bool_decide_eq_false_2 _ Hsent).
  cbn [orb]. exact Hfloat.
Qed.

Lemma estimate_numeric_zcj_witness :
  estimate_zcj_from_row row_numeric = (Some (dec 885 (-1)), false, ZCJ_present_as_numeric).
Proof.
  apply (proj2 (estimate_numeric_zcj row_numeric) (u " 88.5 ")).
  - vm_compute. reflexivity.
  - vm_compute. discriminate.
  - apply (bool_decide_unpack _). vm_compute. exact I.
  - vm_compute. reflexivity.
Defined.

(** C5.  When the ZCJ field of a row is a string that, without its
    surrounding white space, is one of the five grade labels, the resolver
    returns the number of the label, 95 for 优, 85 for 良, 75 for 中, 65 for
    及格 and 55 for 不及格, not flagged as estimated. *)
Theorem estimate_grade_label (row : gmap str pyval) (s : str) (g : Z) :
  get row (u "ZCJ") = PyStr s →
  (strip s, g) ∈ [ (u "优", 95); (u "良", 85); (u "中", 75);
                   (u "及格", 65); (u "不及格", 55) ] →
  estimate_zcj_from_row row = (Some (lit g), false, ZCJ_mapped_from_grade_label).
Proof.
  intros Hget Hin.
  assert (assoc GRADE_MAP (strip s) = Some g) as Hg.
  { revert Hin. generalize (strip s). intros t Hin.
    repeat (apply elem_of_cons in Hin as [Hin | Hin];
            [injection Hin as -> ->; vm_compute; reflexivity |]).
    now apply elem_of_nil in Hin. }
  rewrite estimate_unfold, Hget, (parse_float_safe_label s g Hg).
  cbn [grade_label]. now rewrite Hg.
Qed.

Lemma estimate_grade_label_witness :
  estimate_zcj_from_row row_label = (Some (lit 85), false, ZCJ_mapped_from_grade_label).
Proof.
  apply (estimate_grade_label row_label (u " 良 ") 85).
  - vm_compute. reflexivity.
  - apply (bool_decide_unpack _). vm_compute. exact I.
Defined.

(** ** Official courses *)

Section Official.

Implicit Types (r : gmap str pyval) (c : course).

(** What a row must satisfy for the loop to append a course, and the
    course appended. *)
Lemma official_course_Some r c :
  official_course r = Some c ↔
    (eq_str (get r (u "KCXZDM_DISPLAY")) (u "必修") = true
     ∨ eq_str (get r (u "KCXZDM_DISPLAY")) (u "限选") = true)
    ∧ py_float (get r (u "XF")) = Some (credit c)
    ∧ fle (credit c) (lit 0) = false
    ∧ estimate_zcj_from_row r = (Some (score c), estimated c, estimate_reason c)
    ∧ name c = get r (u "XSKCM")
    ∧ type c = get r (u "KCXZDM_DISPLAY").
Proof.
  unfold official_course.
  destruct (eq_str (get r (u "KCXZDM_DISPLAY")) (u "必修")) eqn:Hreq;
  destruct (eq_str (get r (u "KCXZDM_DISPLAY")) (u "限选")) eqn:Hlim;
  cbn [orb negb].
  4: { split; [discriminate | intros ([H | H] & _); discriminate H]. }
  all: destruct (py_float (get r (u "XF"))) as [cr|] eqn:Hcr;
    [| split; [discriminate | intros (_ & H & _); discriminate H]].
  all: destruct (fle cr (lit 0)) eqn:Hle;
    [split; [discriminate | intros (_ & H & Hc & _); congruence] |].
  all: destruct (estimate_zcj_from_row r) as [[[sc|] est] msg];
    [| split; [discriminate | intros (_ & _ & _ & H & _); discriminate H]].
  all: split;
    [ intros H; injection H as <-;
      cbn [name type score credit estimated estimate_reason];
      repeat split; try reflexivity; try assumption; auto
    | intros (_ & Hc & _ & He & Hn & Ht); destruct c;
      cbn [name type score credit estimated estimate_reason] in *;
      injection Hc as ->; injection He as -> -> ->; now rewrite Hn, Ht ].
Qed.

Lemma extract_official_courses_elem rows c :
  c ∈ extract_official_courses rows ↔ ∃ r, r ∈ rows ∧ official_course r = Some c.
Proof. apply list_elem_of_omap. Qed.

(** A credit that is not NaN and not [<= 0] is positive. *)
Lemma credit_positive x :
  is_nan x = false → fle x (lit 0) = false → flt (lit 0) x = true.
Proof. intros Hx Hle. now apply fle_false_flt. Qed.

End Official.

(** C3.  The loop of [extract_official_courses] on the row
    [row_nan_credit], a required course whose credit field is the text
    [nan]: [float] reads the credit as NaN, the test [credit <= 0] is false
    for NaN, and the course is appended although its credit is not greater
    than 0.  A row of another category, [row_elective], is not appended. *)
Theorem official_nan_credit_appended :
  extract_official_courses [row_nan_credit] =
    [ {| name := PyStr (u "电磁场"); type := PyStr (u "必修");
         score := lit 90; credit := nan;
         estimated := false; estimate_reason := ZCJ_present_as_numeric |} ]
  ∧ flt (lit 0) nan = false
  ∧ extract_official_courses [row_elective] = [].
Proof. vm_compute. auto. Qed.

(** Counterexample to C9 as it is stated: the row [row_nan_score] gives a
    course whose score is NaN. *)
Lemma official_score_nan_counterexample :
  ∃ c, c ∈ extract_official_courses [row_nan_score]
       ∧ ¬ (flt (lit 0) (credit c) = true ∧ is_finite (score c) = true).
Proof.
  exists {| name := PyStr (u "电磁场"); type := PyStr (u "必修");
            score := nan; credit := lit 3;
            estimated := false; estimate_reason := ZCJ_present_as_numeric |}.
  split.
  - apply (bool_decide_unpack _). vm_compute. exact I.
  - cbn. intros [_ H]. discriminate H.
Qed.

(** C9, amended.  Every course of the Official set comes from a row of the
    input: its score is the score the resolver returned for that row, which
    is a float and not [None] (it may be NaN or infinite), its credit is
    what [float] made of the credit field, and a credit that is not NaN is
    greater than 0. *)
Theorem official_course_invariant (rows : list (gmap str pyval)) (c : course) :
  c ∈ extract_official_courses rows →
  ∃ r, r ∈ rows
    ∧ estimate_zcj_from_row r = (Some (score c), estimated c, estimate_reason c)
    ∧ py_float (get r (u "XF")) = Some (credit c)
    ∧ (is_nan (credit c) = false → flt (lit 0) (credit c) = true).
Proof.
  intros Hc. apply extract_official_courses_elem in Hc as (r & Hr & Hc).
  apply official_course_Some in Hc as (_ & Hcr & Hle & Hest & _).
  exists r. repeat (split; [assumption |]).
  intros Hnan. now apply credit_positive.
Qed.

Lemma official_course_invariant_witness :
  ∃ r, r ∈ [row_904; row_elective]
    ∧ estimate_zcj_from_row r = (Some (dec 904 (-1)), false, ZCJ_present_as_numeric)
    ∧ py_float (get r (u "XF")) = Some (lit 3)
    ∧ (is_nan (lit 3) = false → flt (lit 0) (lit 3) = true).
Proof.
  apply (official_course_invariant [row_904; row_elective]
    {| name := PyStr (u "概率论"); type := PyStr (u "必修");
       score := dec 904 (-1); credit := lit 3;
       estimated := false; estimate_reason := ZCJ_present_as_numeric |}).
  apply (bool_decide_unpack _). vm_compute. exact I.
Defined.

(** ** The weighted average *)

Section Average.

Implicit Types (c : course) (courses : list course).

Lemma truthy_feq x : truthy x = negb (feq x (lit 0)).
Proof. reflexivity. Qed.

Lemma weighted_avg_singleton c :
  weighted_avg [c] =
    if feq (fadd fzero (credit c)) (lit 0) then None
    else Some (singleton_avg (score c) (credit c)).
Proof.
  unfold weighted_avg, singleton_avg, py_sum, truthy.
  cbn [fmap list_fmap foldl].
  change (lit 0) with fzero.
  now destruct (feq (fadd fzero (credit c)) fzero).
Qed.

(** Adding a positive float to 0 gives that float. *)
Lemma fadd_zero_positive x : flt (lit 0) x = true → fadd fzero x = x.
Proof. destruct x as [[]|[]| |[] m e]; try discriminate; reflexivity. Qed.

Lemma positive_not_zero x : flt (lit 0) x = true → feq x (lit 0) = false.
Proof. destruct x as [[]|[]| |[] m e]; try discriminate; reflexivity. Qed.

Lemma exact_on_grid_holds : exact_on_grid.
Proof. unfold exact_on_grid. apply (bool_decide_unpack _). vm_compute. exact I. Qed.

Lemma grid_exact n k :
  0 <= n <= 100 → 1 <= k <= 20 →
  singleton_avg (lit n) (fdiv (lit k) (lit 2)) = lit n.
Proof.
  intros Hn Hk. pose proof exact_on_grid_holds as H.
  unfold exact_on_grid in H. rewrite Forall_forall in H.
  assert (n ∈ whole_scores) as Hin by (apply elem_of_seqZ; lia).
  specialize (H n Hin). rewrite Forall_forall in H.
  apply H. apply elem_of_seqZ. lia.
Qed.

End Average.

(** Counterexample to C7 as it is stated: the single course of the row
    [row_904], of score 90.4 and credit 3, has an average that is not its
    score, since 90.4 * 3 is rounded before it is divided by 3. *)
Lemma weighted_avg_singleton_counterexample :
  ∃ c, extract_official_courses [row_904] = [c]
       ∧ flt (lit 0) (credit c) = true
       ∧ score c = dec 904 (-1)
       ∧ weighted_avg [c] ≠ Some (score c).
Proof.
  eexists. split; [vm_compute; reflexivity |].
  split; [vm_compute; reflexivity |].
  split; [vm_compute; reflexivity |].
  vm_compute. discriminate.
Qed.

(** C7, amended.  [weighted_avg] returns the sum of score * credit divided
    by the sum of the credits, both computed in floating point, and [None]
    exactly when the sum of the credits equals zero, as for the empty
    collection.  For one course of credit [c > 0] and score [s] the result
    is [(0 + s * c) / c] in floating point; this is [s] itself for every
    whole score from 0 to 100 with a credit that is a multiple of 0.5 up
    to 10. *)
Theorem weighted_avg_spec :
  (∀ courses,
      weighted_avg courses =
        if feq (py_sum (credit <$> courses)) (lit 0) then None
        else Some (fdiv (py_sum ((λ c, fmul (score c) (credit c)) <$> courses))
                        (py_sum (credit <$> courses))))
  ∧ (∀ courses,
      weighted_avg courses = None ↔ feq (py_sum (credit <$> courses)) (lit 0) = true)
  ∧ weighted_avg [] = None
  ∧ (∀ c, flt (lit 0) (credit c) = true →
      weighted_avg [c] =
        Some (fdiv (fadd fzero (fmul (score c) (credit c))) (credit c)))
  ∧ (∀ c n k, 0 <= n <= 100 → 1 <= k <= 20 →
      score c = lit n → credit c = fdiv (lit k) (lit 2) →
      weighted_avg [c] = Some (score c)).
Proof.
  assert (∀ courses,
      weighted_avg courses =
        if feq (py_sum (credit <$> courses)) (lit 0) then None
        else Some (fdiv (py_sum ((λ c, fmul (score c) (credit c)) <$> courses))
                        (py_sum (credit <$> courses)))) as Hdef.
  { intros courses. unfold weighted_avg. rewrite truthy_feq.
    now destruct (feq (py_sum (credit <$> courses)) (lit 0)). }
  split; [exact Hdef |]. split; [| split; [reflexivity | split]].
  - intros courses. rewrite Hdef.
    destruct (feq (py_sum (credit <$> courses)) (lit 0)); split; try done.
  - intros c Hpos. rewrite weighted_avg_singleton. unfold singleton_avg.
    now rewrite (fadd_zero_positive _ Hpos), (positive_not_zero _ Hpos).
  - intros c n k Hn Hk Hs Hc. rewrite weighted_avg_singleton, Hs, Hc.
    rewrite (grid_exact n k Hn Hk).
    assert (feq (fadd fzero (fdiv (lit k) (lit 2))) (lit 0) = false) as ->; [| done].
    assert (k ∈ half_credits) as Hik by (apply elem_of_seqZ; lia).
    revert Hik. generalize k. apply Forall_forall.
    apply (bool_decide_unpack _). vm_compute. exact I.
Qed.

Lemma weighted_avg_spec_witness :
  weighted_avg [ {| name := PyNone; type := PyStr (u "必修");
                    score := lit 87; credit := fdiv (lit 3) (lit 2);
                    estimated := true;
                    estimate_reason := Estimated_from_components (lit 100) |} ]
  = Some (lit 87).
Proof.
  destruct weighted_avg_spec as (_ & _ & _ & _ & Hgrid).
  apply (Hgrid
    {| name := PyNone; type := PyStr (u "必修");
       score := lit 87; credit := fdiv (lit 3) (lit 2);
       estimated := true;
       estimate_reason := Estimated_from_components (lit 100) |} 87 3);
    [lia | lia | reflexivity | reflexivity].
Defined.

(** ** The object extractor *)

Section Extractor.

Implicit Types (text rest t o s : str) (objs : list str) (d brace : Z)
  (start : option nat) (i st : nat).

(** Outside the braces nothing changes but the position. *)
Lemma extract_loop_brace_free text i t rest objs brace start :
  brace_free t →
  extract_loop text i (t ++ rest) objs brace start =
  extract_loop text (i + List.length t) rest objs brace start.
Proof.
  intros Ht. revert i. induction Ht as [|ch t Hch Ht IH]; intros i.
  - cbn. now rewrite Nat.add_0_r.
  - cbn [app extract_loop List.length]. unfold is_brace in Hch.
    apply orb_false_elim in Hch as [-> ->].
    rewrite IH. f_equal. lia.
Qed.

Lemma extract_loop_brace_free_end text i t objs brace start :
  brace_free t → extract_loop text i t objs brace start = objs.
Proof.
  intros Ht. rewrite <- (app_nil_r t).
  now rewrite (extract_loop_brace_free _ _ _ _ _ _ _ Ht).
Qed.

(** Inside a block the loop runs to the closing brace, where it appends
    the slice from the start of the block. *)
Lemma extract_loop_close text i s rest objs d st :
  0 < d →
  closes_at_end d s = true →
  extract_loop text i (s ++ rest) objs d (Some st) =
  extract_loop text (i + List.length s) rest
    (objs ++ [slice text st (i + List.length s)]) 0 None.
Proof.
  revert i d. induction s as [|ch s IH]; intros i d Hd Hs; [discriminate |].
  cbn [closes_at_end] in Hs. cbn [app extract_loop List.length].
  unfold depth_step in Hs.
  replace (i + S (List.length s))%nat with (S i + List.length s)%nat by lia.
  destruct (ch =? lbrace)%N eqn:Hl.
  - destruct (Z.eqb_spec d 0) as [-> | _]; [lia |].
    destruct (Z.eqb_spec (d + 1) 0) as [Hz | _]; [lia |].
    apply IH; [lia | exact Hs].
  - destruct (ch =? rbrace)%N eqn:Hr.
    + destruct (Z.eqb_spec (d - 1) 0) as [Hz | Hz].
      * apply bool_decide_eq_true in Hs as ->. rewrite Hz.
        cbn [app List.length].
        rewrite Nat.add_0_r. now replace (i + 1)%nat with (S i) by lia.
      * apply IH; [lia | exact Hs].
    + destruct (Z.eqb_spec d 0) as [-> | _]; [lia |].
      apply IH; [lia | exact Hs].
Qed.

(** At depth 0 a balanced block is appended whole. *)
Lemma extract_loop_block text i o rest objs :
  balanced_block o = true →
  extract_loop text i (o ++ rest) objs 0 None =
  extract_loop text (i + List.length o) rest
    (objs ++ [slice text i (i + List.length o)]) 0 None.
Proof.
  destruct o as [|ch s]; [discriminate |]. cbn [balanced_block].
  intros H. apply andb_prop in H as [Hch Hs].
  cbn [app extract_loop List.length]. rewrite Hch.
  change (0 =? 0) with true. cbv iota.
  rewrite (extract_loop_close text (S i) s rest objs (0 + 1) i) by (lia || done).
  now replace (S i + List.length s)%nat with (i + S (List.length s))%nat by lia.
Qed.

Lemma slice_middle (a o b : str) :
  slice (a ++ o ++ b) (List.length a) (List.length a + List.length o) = o.
Proof.
  unfold slice. rewrite drop_app_length.
  replace (List.length a + List.length o - List.length a)%nat with (List.length o) by lia.
  apply take_app_length.
Qed.

(** Two balanced blocks between brace-free texts are extracted as they
    are, in their order. *)
Lemma extract_two_blocks t0 o1 t1 o2 t2 :
  brace_free t0 → brace_free t1 → brace_free t2 →
  balanced_block o1 = true → balanced_block o2 = true →
  extract_json_objects (t0 ++ o1 ++ t1 ++ o2 ++ t2) = [o1; o2].
Proof.
  intros H0 H1 H2 Ho1 Ho2. unfold extract_json_objects.
  set (text := t0 ++ o1 ++ t1 ++ o2 ++ t2).
  unfold text at 2.
  rewrite (extract_loop_brace_free _ _ _ _ _ _ _ H0).
  rewrite (extract_loop_block _ _ _ _ _ Ho1).
  rewrite (extract_loop_brace_free _ _ _ _ _ _ _ H1).
  rewrite (extract_loop_block _ _ _ _ _ Ho2).
  rewrite (extract_loop_brace_free_end _ _ _ _ _ _ H2).
  cbn [app]. f_equal; [| f_equal].
  - unfold text. cbn [Nat.add]. apply slice_middle.
  - unfold text. cbn [Nat.add].
    replace (t0 ++ o1 ++ t1 ++ o2 ++ t2) with ((t0 ++ o1 ++ t1) ++ o2 ++ t2)
      by (now rewrite <- !app_assoc).
    replace (List.length t0 + List.length o1 + List.length t1)%nat
      with (List.length (t0 ++ o1 ++ t1)) by (rewrite !length_app; lia).
    apply slice_middle.
Qed.

End Extractor.

(** ** JSON object texts as brace blocks *)

Section JsonBlocks.

Implicit Types (s r w m t tail : str) (d : Z) (c : N).

Lemma neutral_nil : neutral [].
Proof. intros d tail _. reflexivity. Qed.

Lemma neutral_app w1 w2 : neutral w1 → neutral w2 → neutral (w1 ++ w2).
Proof.
  intros H1 H2 d tail Hd. now rewrite <- app_assoc, H1, H2.
Qed.

Lemma neutral_brace_free w : brace_free w → neutral w.
Proof.
  intros Hw d tail Hd. induction Hw as [|c w Hc Hw IH]; [reflexivity |].
  cbn [app closes_at_end]. unfold depth_step, is_brace in *.
  apply orb_false_elim in Hc as [-> ->].
  destruct (Z.eqb_spec d 0); [lia | exact IH].
Qed.

Lemma neutral_cons c w : is_brace c = false → neutral w → neutral (c :: w).
Proof.
  intros Hc Hw. apply (neutral_app [c] w); [| exact Hw].
  apply neutral_brace_free. now constructor.
Qed.

(** A pair of braces around a neutral text is neutral. *)
Lemma neutral_wrap m : neutral m → neutral (lbrace :: m ++ [rbrace]).
Proof.
  intros Hm d tail Hd. cbn [app closes_at_end]. unfold depth_step at 1 2.
  change (lbrace =? lbrace)%N with true. cbv iota.
  destruct (Z.eqb_spec (d + 1) 0); [lia |].
  rewrite <- app_assoc, Hm by lia. cbn [app closes_at_end].
  unfold depth_step. change (rbrace =? lbrace)%N with false.
  change (rbrace =? rbrace)%N with true. cbv iota.
  replace (d + 1 - 1) with d by lia.
  destruct (Z.eqb_spec d 0); [lia | reflexivity].
Qed.

(** A pair of braces around a neutral text is a balanced block. *)
Lemma balanced_wrap m : neutral m → balanced_block (lbrace :: m ++ [rbrace]) = true.
Proof.
  intros Hm. cbn [balanced_block]. rewrite N.eqb_refl, Hm by lia. reflexivity.
Qed.

Lemma skip_ws_split s : ∃ w, s = w ++ skip_ws s ∧ brace_free w.
Proof.
  induction s as [|c s (w & Hs & Hw)]; [exists []; split; [done | constructor] |].
  cbn [skip_ws]. destruct (is_json_ws c) eqn:Hc.
  - exists (c :: w). split; [cbn; now rewrite <- Hs |].
    constructor; [| exact Hw].
    unfold is_json_ws in Hc. unfold is_brace, lbrace, rbrace.
    repeat (apply orb_prop in Hc as [Hc | Hc]);
      apply N.eqb_eq in Hc; now subst c.
  - exists []. split; [done | constructor].
Qed.

Lemma take_while_split (p : N → bool) s w r :
  (∀ c, p c = true → is_brace c = false) →
  take_while p s = (w, r) → s = w ++ r ∧ brace_free w.
Proof.
  intros Hp. revert w r. induction s as [|c s IH]; intros w r H; cbn in H.
  - injection H as <- <-. split; [done | constructor].
  - destruct (p c) eqn:Hc.
    + destruct (take_while p s) as [w' r'] eqn:Ht. injection H as <- <-.
      destruct (IH w' r' eq_refl) as [-> Hw].
      split; [done | constructor; [now apply Hp | exact Hw]].
    + injection H as <- <-. split; [done | constructor].
Qed.

Lemma is_letter_not_brace c : is_letter c = true → is_brace c = false.
Proof.
  unfold is_letter, is_brace, lbrace, rbrace. intros H.
  apply andb_prop in H as [H1 H2].
  apply N.leb_le in H1, H2. apply orb_false_intro; apply N.eqb_neq; lia.
Qed.

Lemma is_digit_not_brace c : is_digit c = true → is_brace c = false.
Proof.
  unfold is_digit, is_brace, lbrace, rbrace. intros H.
  apply andb_prop in H as [H1 H2].
  apply N.leb_le in H1, H2. apply orb_false_intro; apply N.eqb_neq; lia.
Qed.

Lemma is_number_char_not_brace c : is_number_char c = true → is_brace c = false.
Proof.
  unfold is_number_char. intros H.
  repeat (apply orb_prop in H as [H | H]);
    [now apply is_digit_not_brace | ..];
    apply N.eqb_eq in H; now subst c.
Qed.

Lemma is_hex_not_brace c : is_hex c = true → is_brace c = false.
Proof.
  unfold is_hex. intros H.
  repeat (apply orb_prop in H as [H | H]); [now apply is_digit_not_brace | ..];
    unfold is_brace, lbrace, rbrace; apply andb_prop in H as [H1 H2];
    apply N.leb_le in H1, H2; apply orb_false_intro; apply N.eqb_neq; lia.
Qed.

Lemma is_escape_not_brace c : is_escape c = true → is_brace c = false.
Proof.
  unfold is_escape. intros H.
  repeat (apply orb_prop in H as [H | H]); apply N.eqb_eq in H; now subst c.
Qed.

(** A plain string literal has no brace up to its closing quote. *)
Lemma scan_string_split st s r :
  scan_string true st s = Some r → ∃ w, s = w ++ r ∧ brace_free w.
Proof.
  revert st. induction s as [|c s IH]; intros st H; [discriminate |].
  cbn [scan_string] in H.
  assert (∀ st', is_brace c = false → scan_string true st' s = Some r →
            ∃ w, c :: s = w ++ r ∧ brace_free w) as Hstep.
  { intros st' Hc H'. destruct (IH st' H') as (w & -> & Hw).
    exists (c :: w). split; [done | now constructor]. }
  destruct st as [| |n].
  - destruct (c =? 34)%N eqn:Hq.
    { injection H as <-. exists [c]. split; [done |].
      constructor; [| constructor]. apply N.eqb_eq in Hq. now subst c. }
    destruct (c =? 92)%N eqn:Hb.
    { apply (Hstep Escaped); [| exact H]. apply N.eqb_eq in Hb. now subst c. }
    destruct (c <? 32)%N; [discriminate |].
    cbn [andb] in H. destruct (is_brace c) eqn:Hc; [discriminate |].
    now apply (Hstep InString).
  - destruct (is_escape c) eqn:He.
    { apply (Hstep InString); [now apply is_escape_not_brace | exact H]. }
    destruct (c =? 117)%N eqn:Hu; [| discriminate].
    apply (Hstep (Hex 3)); [| exact H]. apply N.eqb_eq in Hu. now subst c.
  - destruct (is_hex c) eqn:Hh; [| discriminate].
    eapply Hstep; [now apply is_hex_not_brace | exact H].
Qed.

End JsonBlocks.

(** Reassociation of concatenations. *)
Ltac list_assoc :=
  repeat (progress (cbn [app]; rewrite <- ?app_assoc)); reflexivity.

(** Neutrality of a concatenation of brace-free and neutral texts. *)
Ltac neutral_tac :=
  repeat first
    [ assumption
    | apply neutral_nil
    | apply neutral_brace_free; assumption
    | apply neutral_wrap
    | apply neutral_cons; [reflexivity |]
    | apply neutral_app ].

(** A character test that holds determines the character. *)
Ltac char_eq H := apply N.eqb_eq in H; subst.

(** Split the text [x] into the white space [w] in front of it and what
    [skip_ws] leaves, [y]. *)
Ltac split_ws x w y Hw :=
  let Hx := fresh "Hx" in
  let E := fresh "E" in
  destruct (skip_ws_split x) as (w & Hx & Hw);
  remember (skip_ws x) as y eqn:E in *; clear E; subst x.

Section JsonScan.

Implicit Types (s r : str) (mode : scan_mode).

Lemma scan_scanned fuel mode s r :
  scan true fuel mode s = Some r → scanned mode s r.
Proof.
  revert mode s r. induction fuel as [|fuel IH]; intros mode s r H; [discriminate |].
  cbn [scan] in H. destruct mode.
  - (* a value *)
    destruct s as [|c r0]; [discriminate |].
    destruct (c =? lbrace)%N eqn:Hl.
    { char_eq Hl. split_ws r0 w0 yr0 Hw0.
      destruct yr0 as [|c1 r1]; [discriminate |].
      destruct (c1 =? rbrace)%N eqn:Hr.
      - char_eq Hr. injection H as <-.
        exists (lbrace :: w0 ++ [rbrace]).
        split; [list_assoc |]. split; [neutral_tac |].
        intros _ _ _ _. exists w0. split; [reflexivity | neutral_tac].
      - apply (IH Members) in H as (m & -> & Hm).
        exists (lbrace :: (w0 ++ m) ++ [rbrace]).
        split; [list_assoc |]. split; [neutral_tac |].
        intros _ _ _ _. exists (w0 ++ m). split; [reflexivity | neutral_tac]. }
    assert (∀ w, c :: r0 = w ++ r → neutral w → scanned Value (c :: r0) r) as Hdone.
    { intros w Hw Hn. exists w. split; [exact Hw |]. split; [exact Hn |].
      intros c' s' Heq ->. injection Heq as Hc _.
      rewrite Hc, N.eqb_refl in Hl. discriminate Hl. }
    clear Hl.
    destruct (c =? 91)%N eqn:Hb.
    { char_eq Hb. split_ws r0 w0 yr0 Hw0. 
      destruct yr0 as [|c1 r1]; [discriminate |].
      destruct (c1 =? 93)%N eqn:Hr.
      - char_eq Hr. injection H as <-.
        apply (Hdone (91%N :: w0 ++ [93%N])); [list_assoc | neutral_tac].
      - apply (IH Elements) in H as (w1 & Heq & Hw1). rewrite Heq in *.
        apply (Hdone (91%N :: w0 ++ w1)); [list_assoc | neutral_tac]. }
    destruct (c =? 34)%N eqn:Hq.
    { char_eq Hq. apply scan_string_split in H as (w1 & Heq & Hw1).
      rewrite Heq in *.
      apply (Hdone (34%N :: w1)); [list_assoc | neutral_tac]. }
    destruct (is_letter c) eqn:Hlet.
    { destruct (take_while is_letter (c :: r0)) as [w r'] eqn:Ht.
      destruct (valid_literal w); [| discriminate]. injection H as <-.
      apply (take_while_split _ _ _ _ is_letter_not_brace) in Ht as [Heq Hw].
      apply (Hdone w); [exact Heq | neutral_tac]. }
    destruct (take_while is_number_char (c :: r0)) as [w r'] eqn:Ht.
    destruct (valid_number w); [| discriminate]. injection H as <-.
    apply (take_while_split _ _ _ _ is_number_char_not_brace) in Ht as [Heq Hw].
    apply (Hdone w); [exact Heq | neutral_tac].
  - (* the members of an object *)
    destruct s as [|c r0]; [discriminate |].
    destruct (c =? 34)%N eqn:Hq; [| discriminate]. char_eq Hq.
    destruct (scan_string true InString r0) as [r1|] eqn:Hs1; [| discriminate].
    cbn [mbind option_bind] in H.
    apply scan_string_split in Hs1 as (w1 & -> & Hw1).
    split_ws r1 w2 yr1 Hw2.
    destruct yr1 as [|c1 r2]; [discriminate |].
    destruct (c1 =? 58)%N eqn:Hc; [| discriminate]. char_eq Hc.
    split_ws r2 w3 yr2 Hw3.
    destruct (scan true fuel Value yr2) as [r3|] eqn:Hv; [| discriminate].
    cbn [mbind option_bind] in H.
    apply (IH Value) in Hv as (w4 & -> & Hw4 & _).
    split_ws r3 w5 yr3 Hw5.
    destruct yr3 as [|c2 r4]; [discriminate |].
    destruct (c2 =? 44)%N eqn:Hcomma.
    + char_eq Hcomma. split_ws r4 w6 yr4 Hw6.
      apply (IH Members) in H as (m & -> & Hm).
      exists (34%N :: w1 ++ w2 ++ 58%N :: w3 ++ w4 ++ w5 ++ 44%N :: w6 ++ m).
      split; [list_assoc | neutral_tac].
    + destruct (c2 =? rbrace)%N eqn:Hr; [| discriminate].
      char_eq Hr. injection H as <-.
      exists (34%N :: w1 ++ w2 ++ 58%N :: w3 ++ w4 ++ w5).
      split; [list_assoc | neutral_tac].
  - (* the elements of an array *)
    destruct (scan true fuel Value s) as [r1|] eqn:Hv; [| discriminate].
    cbn [mbind option_bind] in H.
    apply (IH Value) in Hv as (w1 & -> & Hw1 & _).
    split_ws r1 w2 yr1 Hw2.
    destruct yr1 as [|c1 r2]; [discriminate |].
    destruct (c1 =? 44)%N eqn:Hcomma.
    + char_eq Hcomma. split_ws r2 w3 yr2 Hw3.
      apply (IH Elements) in H as (w4 & -> & Hw4).
      exists (w1 ++ w2 ++ 44%N :: w3 ++ w4).
      split; [list_assoc | neutral_tac].
    + destruct (c1 =? 93)%N eqn:Hr; [| discriminate].
      char_eq Hr. injection H as <-.
      exists (w1 ++ w2 ++ [93%N]).
      split; [list_assoc | neutral_tac].
Qed.

(** A JSON object text without braces in its strings is a balanced
    block. *)
Lemma plain_json_balanced s :
  is_plain_json_object s = true → balanced_block s = true.
Proof.
  unfold is_plain_json_object, json_object.
  destruct s as [|c s']; [discriminate |]. intros H.
  apply andb_prop in H as [Hc H]. char_eq Hc.
  apply bool_decide_eq_true in H.
  apply scan_scanned in H as (w & Hw & _ & Hobj).
  destruct (Hobj lbrace s' eq_refl eq_refl) as (m & -> & Hm).
  rewrite app_nil_r in Hw. rewrite Hw. now apply balanced_wrap.
Qed.

End JsonScan.

Section PlainObjects.

Lemma scan_string_plain st s r :
  scan_string true st s = Some r → scan_string false st s = Some r.
Proof.
  revert st. induction s as [|c s IH]; intros st H; [discriminate |].
  cbn [scan_string] in *. destruct st.
  - destruct (c =? 34)%N; [exact H |].
    destruct (c =? 92)%N; [now apply IH |].
    destruct (c <? 32)%N; [discriminate |].
    cbn [andb] in *. destruct (is_brace c); [discriminate | now apply IH].
  - destruct (is_escape c); [now apply IH |].
    destruct (c =? 117)%N; [now apply IH | discriminate].
  - destruct (is_hex c); [now apply IH | discriminate].
Qed.

Lemma scan_plain fuel mode s r :
  scan true fuel mode s = Some r → scan false fuel mode s = Some r.
Proof.
  revert mode s r. induction fuel as [|fuel IH]; intros mode s r H; [discriminate |].
  cbn [scan] in *. destruct mode.
  - destruct s as [|c r0]; [discriminate |].
    destruct (c =? lbrace)%N.
    { destruct (skip_ws r0) as [|c1 r1]; [discriminate |].
      destruct (c1 =? rbrace)%N; [exact H | now apply IH]. }
    destruct (c =? 91)%N.
    { destruct (skip_ws r0) as [|c1 r1]; [discriminate |].
      destruct (c1 =? 93)%N; [exact H | now apply IH]. }
    destruct (c =? 34)%N; [now apply scan_string_plain | exact H].
  - destruct s as [|c r0]; [discriminate |].
    destruct (c =? 34)%N; [| discriminate].
    destruct (scan_string true InString r0) as [r1|] eqn:Hs1; [| discriminate].
    rewrite (scan_string_plain _ _ _ Hs1). cbn [mbind option_bind] in *.
    destruct (skip_ws r1) as [|c1 r2]; [discriminate |].
    destruct (c1 =? 58)%N; [| discriminate].
    destruct (scan true fuel Value (skip_ws r2)) as [r3|] eqn:Hv; [| discriminate].
    rewrite (IH _ _ _ Hv). cbn [mbind option_bind] in *.
    destruct (skip_ws r3) as [|c2 r4]; [discriminate |].
    destruct (c2 =? 44)%N; [now apply IH | exact H].
  - destruct (scan true fuel Value s) as [r1|] eqn:Hv; [| discriminate].
    rewrite (IH _ _ _ Hv). cbn [mbind option_bind] in *.
    destruct (skip_ws r1) as [|c1 r2]; [discriminate |].
    destruct (c1 =? 44)%N; [now apply IH | exact H].
Qed.

(** The objects without braces in their strings are JSON objects. *)
Lemma plain_json_object_valid s :
  is_plain_json_object s = true → is_json_object s = true.
Proof.
  unfold is_plain_json_object, is_json_object, json_object.
  destruct s as [|c s']; [discriminate |]. intros H.
  apply andb_prop in H as [-> H]. apply bool_decide_eq_true in H.
  cbn [andb]. apply bool_decide_eq_true. now apply scan_plain.
Qed.

End PlainObjects.

(** Counterexample to C8 as it is stated: an object with a closing brace
    inside a string value is a JSON object text, and the extractor cuts it
    at that brace and yields one span for the two objects. *)
Lemma extract_json_objects_counterexample :
  ¬ (∀ t0 o1 t1 o2 t2,
       brace_free t0 → brace_free t1 → brace_free t2 →
       is_json_object o1 = true → is_json_object o2 = true →
       extract_json_objects (t0 ++ o1 ++ t1 ++ o2 ++ t2) = [o1; o2]).
Proof.
  intros H.
  specialize (H [] object_brace_in_string [] object_b []
                (Forall_nil_2 _) (Forall_nil_2 _) (Forall_nil_2 _)
                eq_refl eq_refl).
  vm_compute in H. discriminate H.
Qed.

(** C8, amended.  For two JSON object texts none of whose string literals
    holds a brace character, joined with brace-free text before, between
    and after them, the extractor yields exactly the two texts, in their
    order, each whole with its nested braces. *)
Theorem extract_two_json_objects (t0 o1 t1 o2 t2 : str) :
  brace_free t0 → brace_free t1 → brace_free t2 →
  is_plain_json_object o1 = true → is_plain_json_object o2 = true →
  extract_json_objects (t0 ++ o1 ++ t1 ++ o2 ++ t2) = [o1; o2].
Proof.
  intros H0 H1 H2 Ho1 Ho2.
  apply extract_two_blocks; try assumption; now apply plain_json_balanced.
Qed.

Lemma extract_two_json_objects_witness :
  extract_json_objects
    (text_before ++ object_nested ++ text_between ++ object_second ++ text_after)
  = [object_nested; object_second].
Proof.
  apply (extract_two_json_objects text_before object_nested text_between
           object_second text_after).
  - apply (bool_decide_unpack _). vm_compute. exact I.
  - apply (bool_decide_unpack _). vm_compute. exact I.
  - apply (bool_decide_unpack _). vm_compute. exact I.
  - vm_compute. reflexivity.
  - vm_compute. reflexivity.
Defined.

(** ** More on the object extractor *)

Section ExtractorMore.

Implicit Types (text pre rest t o s body : str) (objs : list str) (d brace : Z)
  (start : option nat) (i st : nat) (parts : list (str * str)).

Lemma slice_at pre o rest :
  slice (pre ++ o ++ rest) (List.length pre) (List.length pre + List.length o) = o.
Proof. apply slice_middle. Qed.

(** Any number of balanced blocks, read at depth 0 from the position where
    they start, are appended in their order. *)
Lemma extract_loop_blocks parts pre tail objs :
  blocks_ok parts →
  extract_loop (pre ++ join_blocks parts ++ tail) (List.length pre)
    (join_blocks parts ++ tail) objs 0 None =
  extract_loop (pre ++ join_blocks parts ++ tail)
    (List.length pre + List.length (join_blocks parts)) tail
    (objs ++ parts.*1) 0 None.
Proof.
  intros Hok. revert pre objs.
  induction Hok as [|[o t] parts [Ho Ht] Hok IH]; intros pre objs.
  { cbn. now rewrite app_nil_r, Nat.add_0_r. }
  cbn [fst snd] in Ho, Ht.
  unfold join_blocks. cbn [fmap list_fmap List.concat fst snd].
  fold (join_blocks parts). rewrite <- !app_assoc.
  rewrite (extract_loop_block _ _ _ _ _ Ho).
  rewrite (extract_loop_brace_free _ _ _ _ _ _ _ Ht).
  rewrite slice_at.
  replace (pre ++ o ++ t ++ join_blocks parts ++ tail)
    with ((pre ++ o ++ t) ++ join_blocks parts ++ tail)
    by (now rewrite <- !app_assoc).
  replace (List.length pre + List.length o + List.length t)%nat
    with (List.length (pre ++ o ++ t)) by (rewrite !length_app; lia).
  rewrite IH. rewrite <- !app_assoc. cbn [app]. f_equal.
  rewrite !length_app. lia.
Qed.

Lemma open_depth_positive d s d' : 0 < d → open_depth d s = Some d' → 0 < d'.
Proof.
  revert d. induction s as [|ch s IH]; intros d Hd H; cbn in H.
  - now injection H as <-.
  - destruct (Z.leb_spec (depth_step d ch) 0); [discriminate |]. eauto.
Qed.

Lemma open_depth_snoc d s d' ch :
  open_depth d s = Some d' →
  open_depth d (s ++ [ch]) =
    if depth_step d' ch <=? 0 then None else Some (depth_step d' ch).
Proof.
  revert d. induction s as [|c s IH]; intros d H; cbn in H.
  - injection H as <-. cbn. now destruct (depth_step d ch <=? 0).
  - cbn [app open_depth]. destruct (depth_step d c <=? 0); [discriminate |]. eauto.
Qed.

(** A text that keeps the depth above 0 and ends at depth 1 is closed by
    one more brace. *)
Lemma open_depth_closes d body :
  0 < d → open_depth d body = Some 1 → closes_at_end d (body ++ [rbrace]) = true.
Proof.
  revert d. induction body as [|ch body IH]; intros d Hd H; cbn in H.
  - injection H as ->. reflexivity.
  - cbn [app closes_at_end].
    destruct (Z.leb_spec (depth_step d ch) 0) as [|Hpos]; [discriminate |].
    destruct (Z.eqb_spec (depth_step d ch) 0) as [Hz|_]; [lia |]. eauto.
Qed.

(** An object that is never closed contributes nothing. *)
Lemma extract_loop_open text i s objs d st d' :
  0 < d → open_depth d s = Some d' →
  extract_loop text i s objs d (Some st) = objs.
Proof.
  revert i d. induction s as [|ch s IH]; intros i d Hd H; [reflexivity |].
  cbn [open_depth] in H. cbn [extract_loop]. unfold depth_step in H.
  destruct (ch =? lbrace)%N.
  - destruct (Z.eqb_spec d 0) as [-> | _]; [lia |].
    destruct (Z.leb_spec (d + 1) 0); [discriminate |].
    apply (IH _ (d + 1)); [lia | exact H].
  - destruct (ch =? rbrace)%N.
    + destruct (Z.leb_spec (d - 1) 0); [discriminate |].
      destruct (Z.eqb_spec (d - 1) 0) as [Hz | _]; [lia |].
      apply (IH _ (d - 1)); [lia | exact H].
    + destruct (Z.leb_spec d 0); [discriminate |].
      apply (IH _ d); [lia | exact H].
Qed.

Lemma extract_loop_spans text pre rest objs brace start :
  text = pre ++ rest →
  Forall (span_of text) objs →
  loop_state pre brace start →
  Forall (span_of text) (extract_loop text (List.length pre) rest objs brace start).
Proof.
  revert pre objs brace start.
  induction rest as [|ch rest IH]; intros pre objs brace start Htext Hobjs Hst;
    [exact Hobjs |].
  assert (text = (pre ++ [ch]) ++ rest) as Htext'
    by (now rewrite <- app_assoc).
  assert (S (List.length pre) = List.length (pre ++ [ch])) as Hlen
    by (rewrite length_app; cbn; lia).
  cbn [extract_loop]. rewrite Hlen.
  destruct (ch =? lbrace)%N eqn:Hl.
  { apply N.eqb_eq in Hl. subst ch.
    apply IH; [exact Htext' | exact Hobjs |].
    destruct start as [st|]; cbn in Hst.
    - destruct Hst as (p & body & -> & Hp & Hbody).
      pose proof (open_depth_positive 1 _ _ Z.lt_0_1 Hbody) as Hpos.
      destruct (Z.eqb_spec brace 0) as [-> | _]; [lia |].
      exists p, (body ++ [lbrace]). split; [now rewrite <- app_assoc |].
      split; [exact Hp |].
      rewrite (open_depth_snoc _ _ _ _ Hbody). unfold depth_step.
      change (lbrace =? lbrace)%N with true. cbv iota.
      destruct (Z.leb_spec (brace + 1) 0); [lia | reflexivity].
    - destruct (Z.eqb_spec brace 0) as [-> | Hne].
      + exists pre, []. split; [reflexivity |]. split; reflexivity.
      + cbn. lia. }
  destruct (ch =? rbrace)%N eqn:Hr.
  { apply N.eqb_eq in Hr. subst ch.
    destruct start as [st|]; cbn in Hst.
    - destruct Hst as (p & body & -> & Hp & Hbody).
      pose proof (open_depth_positive 1 _ _ Z.lt_0_1 Hbody) as Hpos.
      destruct (Z.eqb_spec (brace - 1) 0) as [Hz | Hz].
      + apply IH; [exact Htext' | | cbn; lia].
        apply Forall_app. split; [exact Hobjs |].
        apply Forall_singleton.
        assert (slice text st (List.length (p ++ lbrace :: body) + 1)
                = lbrace :: body ++ [rbrace]) as ->.
        { rewrite Htext, <- Hp.
          replace ((p ++ lbrace :: body) ++ rbrace :: rest)
            with (p ++ (lbrace :: body ++ [rbrace]) ++ rest)
            by (rewrite <- !app_assoc; cbn; now rewrite <- app_assoc).
          replace (List.length (p ++ lbrace :: body) + 1)%nat
            with (List.length p + List.length (lbrace :: body ++ [rbrace]))%nat
            by (rewrite !length_app; cbn; rewrite length_app; cbn; lia).
          apply slice_at. }
        split.
        * cbn [balanced_block]. rewrite N.eqb_refl. cbn [andb].
          apply open_depth_closes; [lia |].
          now replace brace with 1 in Hbody by lia.
        * exists p, rest. rewrite Htext.
          rewrite <- !app_assoc. cbn. now rewrite <- app_assoc.
      + apply IH; [exact Htext' | exact Hobjs |].
        exists p, (body ++ [rbrace]). split; [now rewrite <- app_assoc |].
        split; [exact Hp |].
        rewrite (open_depth_snoc _ _ _ _ Hbody). unfold depth_step.
        change (rbrace =? lbrace)%N with false.
        change (rbrace =? rbrace)%N with true. cbv iota.
        destruct (Z.leb_spec (brace - 1) 0); [lia | reflexivity].
    - assert (extract_loop text (List.length (pre ++ [rbrace])) rest objs
                (brace - 1) None
              = match brace - 1 =? 0, @None nat with
                | true, Some st =>
                  extract_loop text (List.length (pre ++ [rbrace])) rest
                    (objs ++ [slice text st (List.length pre + 1)]) (brace - 1) None
                | _, _ =>
                  extract_loop text (List.length (pre ++ [rbrace])) rest objs
                    (brace - 1) None
                end) as <- by (now destruct (brace - 1 =? 0)).
      apply IH; [exact Htext' | exact Hobjs | cbn; lia]. }
  apply IH; [exact Htext' | exact Hobjs |].
  destruct start as [st|]; cbn in Hst |- *; [| exact Hst].
  destruct Hst as (p & body & -> & Hp & Hbody).
  pose proof (open_depth_positive 1 _ _ Z.lt_0_1 Hbody) as Hpos.
  exists p, (body ++ [ch]). split; [now rewrite <- app_assoc |].
  split; [exact Hp |].
  rewrite (open_depth_snoc _ _ _ _ Hbody). unfold depth_step. rewrite Hl, Hr.
  destruct (Z.leb_spec brace 0); [lia | reflexivity].
Qed.

End ExtractorMore.

(** X1.  Any number of balanced brace blocks, each followed by brace-free
    text and the first preceded by brace-free text, are extracted as they
    are and in their order; a text without braces gives no object. *)
Theorem extract_join_blocks (t0 : str) (parts : list (str * str)) :
  brace_free t0 → blocks_ok parts →
  extract_json_objects (t0 ++ join_blocks parts) = parts.*1.
Proof.
  intros H0 Hok. unfold extract_json_objects.
  rewrite (extract_loop_brace_free _ _ _ _ _ _ _ H0). cbn [Nat.add].
  rewrite <- (app_nil_r (join_blocks parts)).
  rewrite (extract_loop_blocks _ _ _ _ Hok). reflexivity.
Qed.

Lemma extract_join_blocks_witness :
  extract_json_objects (text_before ++ join_blocks sample_parts) = sample_parts.*1.
Proof.
  apply (extract_join_blocks text_before sample_parts).
  - apply (bool_decide_unpack _). vm_compute. exact I.
  - apply (bool_decide_unpack _). vm_compute. exact I.
Defined.

(** X2.  Whatever the text, every span the extractor yields is a part of
    the text that starts with an opening brace and is closed by its last
    character and not before. *)
Theorem extracted_span_balanced (text o : str) :
  o ∈ extract_json_objects text →
  balanced_block o = true ∧ ∃ p q, text = p ++ o ++ q.
Proof.
  intros Ho.
  pose proof (extract_loop_spans text [] text [] 0 None eq_refl
                (Forall_nil_2 _) (Z.le_refl 0)) as Hall.
  rewrite Forall_forall in Hall. exact (Hall o Ho).
Qed.

Lemma extracted_span_balanced_witness :
  balanced_block object_b = true
  ∧ ∃ p q, text_unbalanced = p ++ object_b ++ q.
Proof.
  apply (extracted_span_balanced text_unbalanced object_b).
  apply (bool_decide_unpack _). vm_compute. exact I.
Defined.

(** X3.  An object that is opened and never closed contributes nothing:
    the blocks before it are extracted, the unclosed rest is dropped. *)
Theorem extract_unclosed_dropped (t0 s : str) (parts : list (str * str)) (d : Z) :
  brace_free t0 → blocks_ok parts →
  open_depth 1 s = Some d →
  extract_json_objects (t0 ++ join_blocks parts ++ lbrace :: s) = parts.*1.
Proof.
  intros H0 Hok Hs. unfold extract_json_objects.
  rewrite (extract_loop_brace_free _ _ _ _ _ _ _ H0). cbn [Nat.add].
  rewrite (extract_loop_blocks _ _ _ _ Hok). cbn [extract_loop app].
  change (lbrace =? lbrace)%N with true. cbv iota. change (0 =? 0) with true.
  cbv iota. exact (extract_loop_open _ _ _ _ _ _ _ Z.lt_0_1 Hs).
Qed.

Lemma extract_unclosed_dropped_witness :
  extract_json_objects
    (text_before ++ join_blocks sample_parts ++ lbrace :: unclosed_rest)
  = sample_parts.*1.
Proof.
  apply (extract_unclosed_dropped text_before unclosed_rest sample_parts 2).
  - apply (bool_decide_unpack _). vm_compute. exact I.
  - apply (bool_decide_unpack _). vm_compute. exact I.
  - vm_compute. reflexivity.
Defined.

(** X4.  After a closing brace that closes nothing the depth stays one
    short for the rest of the text: an object that follows is not
    extracted, the objects nested directly in it are extracted in its
    place, none when it holds no nested object. *)
Theorem extract_after_stray_brace (t0 t1 s0 t2 : str) (parts : list (str * str)) :
  brace_free t0 → brace_free t1 → brace_free s0 → brace_free t2 →
  blocks_ok parts →
  extract_json_objects
    (t0 ++ rbrace :: t1 ++ lbrace :: s0 ++ join_blocks parts ++ rbrace :: t2)
  = parts.*1.
Proof.
  intros H0 H1 Hs0 H2 Hok. unfold extract_json_objects.
  set (text := t0 ++ rbrace :: t1 ++ lbrace :: s0 ++ join_blocks parts ++ rbrace :: t2).
  unfold text at 2.
  rewrite (extract_loop_brace_free _ _ _ _ _ _ _ H0).
  cbn [extract_loop].
  change (rbrace =? lbrace)%N with false. change (rbrace =? rbrace)%N with true.
  cbv iota. change (0 - 1 =? 0) with false. cbv iota.
  rewrite (extract_loop_brace_free _ _ _ _ _ _ _ H1).
  cbn [extract_loop].
  change (lbrace =? lbrace)%N with true. cbv iota.
  change (0 - 1 =? 0) with false. cbv iota. change (0 - 1 + 1) with 0.
  rewrite (extract_loop_brace_free _ _ _ _ _ _ _ Hs0).
  subst text.
  replace (t0 ++ rbrace :: t1 ++ lbrace :: s0 ++ join_blocks parts ++ rbrace :: t2)
    with ((t0 ++ rbrace :: t1 ++ lbrace :: s0) ++ join_blocks parts ++ rbrace :: t2)
    by (rewrite <- !app_assoc; cbn; rewrite <- !app_assoc; cbn; reflexivity).
  replace (S (S (0 + List.length t0) + List.length t1) + List.length s0)%nat
    with (List.length (t0 ++ rbrace :: t1 ++ lbrace :: s0))
    by (rewrite !length_app; cbn; rewrite !length_app; cbn; lia).
  rewrite (extract_loop_blocks _ _ _ _ Hok).
  cbn [extract_loop app].
  change (rbrace =? lbrace)%N with false. change (rbrace =? rbrace)%N with true.
  cbv iota. change (0 - 1 =? 0) with false. cbv iota.
  exact (extract_loop_brace_free_end _ _ _ _ _ _ H2).
Qed.

Lemma extract_after_stray_brace_witness :
  extract_json_objects
    ([] ++ rbrace :: u " " ++ lbrace :: js "'datas':"
       ++ join_blocks nested_parts ++ rbrace :: u " ")
  = nested_parts.*1.
Proof.
  apply (extract_after_stray_brace [] (u " ") (js "'datas':") (u " ") nested_parts).
  - constructor.
  - apply (bool_decide_unpack _). vm_compute. exact I.
  - apply (bool_decide_unpack _). vm_compute. exact I.
  - apply (bool_decide_unpack _). vm_compute. exact I.
  - apply (bool_decide_unpack _). vm_compute. exact I.
Defined.

(** ** More on the score resolver *)

Section ResolverMore.

Implicit Types (row : gmap str pyval) (names : list (str * str)) (s a b : str).

(** Without a component score the loop changes nothing. *)
Lemma comp_loop_no_scores row names acc :
  (∀ sk wk, (sk, wk) ∈ names → parse_float_safe (get row sk) = None) →
  comp_loop row names acc = inr acc.
Proof.
  induction names as [|[sk0 wk0] names IH]; intros Hall; [reflexivity |].
  cbn [comp_loop]. rewrite (Hall sk0 wk0 (list_elem_of_here _ _)).
  apply IH. intros sk wk Hin. apply (Hall sk wk). now apply list_elem_of_further.
Qed.

(** The early return of the loop names a pair of the list. *)
Lemma comp_loop_inl row names acc msg :
  comp_loop row names acc = inl msg →
  ∃ sk wk, msg = Missing_weight wk sk ∧ (sk, wk) ∈ names.
Proof.
  revert acc. induction names as [|[sk0 wk0] names IH]; intros acc H; [discriminate |].
  cbn [comp_loop] in H.
  destruct (parse_float_safe (get row sk0)) as [s0|].
  - destruct (parse_float_safe (get row wk0)) as [w0|].
    + destruct (IH _ H) as (sk & wk & -> & Hin).
      exists sk, wk. split; [reflexivity | now apply list_elem_of_further].
    + injection H as <-. exists sk0, wk0. split; [reflexivity | apply list_elem_of_here].
  - destruct (IH _ H) as (sk & wk & -> & Hin).
    exists sk, wk. split; [reflexivity | now apply list_elem_of_further].
Qed.

(** The loop reads the row at the keys of the list only. *)
Lemma comp_loop_ext row1 row2 names acc :
  (∀ sk wk, (sk, wk) ∈ names →
     get row1 sk = get row2 sk ∧ get row1 wk = get row2 wk) →
  comp_loop row1 names acc = comp_loop row2 names acc.
Proof.
  revert acc. induction names as [|[sk0 wk0] names IH]; intros acc Hall; [reflexivity |].
  cbn [comp_loop].
  destruct (Hall sk0 wk0 (list_elem_of_here _ _)) as [-> ->].
  assert (∀ sk wk, (sk, wk) ∈ names →
     get row1 sk = get row2 sk ∧ get row1 wk = get row2 wk) as Hall'.
  { intros sk wk Hin. apply Hall. now apply list_elem_of_further. }
  destruct (parse_float_safe (get row2 sk0));
    [destruct (parse_float_safe (get row2 wk0)) |]; auto.
Qed.

Lemma lstrip_by_spaces (p : N → bool) a s :
  Forall (λ c, p c = true) a → lstrip_by p (a ++ s) = lstrip_by p s.
Proof.
  induction 1 as [|c a Hc Ha IH]; [reflexivity |]. cbn. now rewrite Hc.
Qed.

Lemma lstrip_by_all (p : N → bool) a :
  Forall (λ c, p c = true) a → lstrip_by p a = [].
Proof.
  intros Ha. rewrite <- (app_nil_r a). now rewrite lstrip_by_spaces.
Qed.

Lemma lstrip_by_cases (p : N → bool) s :
  (lstrip_by p s = [] ∧ Forall (λ c, p c = true) s)
  ∨ ∃ c t, lstrip_by p s = c :: t ∧ p c = false.
Proof.
  induction s as [|c s IH]; [left; split; [reflexivity | constructor] |].
  cbn. destruct (p c) eqn:Hc.
  - destruct IH as [[-> Hall] | Hex]; [left | now right].
    split; [reflexivity | now constructor].
  - right. now exists c, s.
Qed.

(** White space around a text does not change what is left of it. *)
Lemma strip_by_spaces (p : N → bool) a s b :
  Forall (λ c, p c = true) a → Forall (λ c, p c = true) b →
  strip_by p (a ++ s ++ b) = strip_by p s.
Proof.
  intros Ha Hb. unfold strip_by. rewrite (lstrip_by_spaces p a _ Ha).
  assert (Forall (λ c, p c = true) (reverse b)) as Hrb.
  { apply Forall_forall. intros c Hc. rewrite elem_of_reverse in Hc.
    rewrite Forall_forall in Hb. exact (Hb c Hc). }
  destruct (lstrip_by_cases p s) as [[Hs Hall] | (c & t & Hs & Hc)].
  - rewrite Hs, (lstrip_by_spaces p s b Hall), (lstrip_by_all p b Hb). reflexivity.
  - assert (lstrip_by p (s ++ b) = lstrip_by p s ++ b) as ->.
    { clear Ha Hb Hrb. revert Hs. induction s as [|x s IH]; [discriminate |].
      cbn. destruct (p x); [exact IH | reflexivity]. }
    now rewrite reverse_app, (lstrip_by_spaces p _ _ Hrb).
Qed.

Lemma parse_float_safe_spaces a s b :
  Forall (λ c, is_space c = true) a → Forall (λ c, is_space c = true) b →
  parse_float_safe (PyStr (a ++ s ++ b)) = parse_float_safe (PyStr s).
Proof.
  intros Ha Hb. unfold parse_float_safe, strip.
  now rewrite (strip_by_spaces is_space a s b Ha Hb).
Qed.

Lemma get_insert row k v : get (<[k := v]> row) k = v.
Proof. unfold get. now rewrite lookup_insert_eq. Qed.

Lemma get_insert_ne row k k' v : k ≠ k' → get (<[k := v]> row) k' = get row k'.
Proof. intros Hne. unfold get. now rewrite lookup_insert_ne. Qed.

(** Rows that agree on the fields the resolver reads get the same
    result. *)
Lemma estimate_ext row1 row2 :
  (∀ k, k ∈ resolver_keys → get row1 k = get row2 k) →
  estimate_zcj_from_row row1 = estimate_zcj_from_row row2.
Proof.
  intros Hk. rewrite !estimate_unfold.
  rewrite (Hk (u "ZCJ") (list_elem_of_here _ _)).
  rewrite (comp_loop_ext row1 row2); [reflexivity |].
  intros sk wk Hin. split; apply Hk; apply list_elem_of_further;
    apply list_elem_of_In, in_flat_map; exists (sk, wk);
    (split; [now apply list_elem_of_In | cbn; auto]).
Qed.

End ResolverMore.

Lemma comp_keys_not_zcj sk wk :
  (sk, wk) ∈ comp_names → u "ZCJ" ≠ sk ∧ u "ZCJ" ≠ wk.
Proof.
  intros Hin. unfold comp_names in Hin.
  repeat (apply elem_of_cons in Hin as [Hin | Hin];
          [injection Hin as -> ->; split; intros H; vm_compute in H; discriminate H |]).
  now apply elem_of_nil in Hin.
Qed.

(** X5.  When the ZCJ field neither parses as a number nor is a grade label
    and none of the three component scores parses, the resolver returns no
    score, flagged as estimated, with the reason that no component score
    is available; weights without a score are not looked at. *)
Theorem estimate_no_components (row : gmap str pyval) :
  parse_float_safe (get row (u "ZCJ")) = None →
  grade_label (get row (u "ZCJ")) = None →
  (∀ sk wk, (sk, wk) ∈ comp_names → parse_float_safe (get row sk) = None) →
  estimate_zcj_from_row row = (None, true, No_component_scores).
Proof.
  intros Hzcj Hlabel Hnone.
  now rewrite estimate_unfold, Hzcj, Hlabel, (comp_loop_no_scores _ _ _ Hnone).
Qed.

Lemma estimate_no_components_witness :
  estimate_zcj_from_row row_no_scores = (None, true, No_component_scores).
Proof.
  apply (estimate_no_components row_no_scores).
  - vm_compute. reflexivity.
  - vm_compute. reflexivity.
  - intros sk wk Hin. unfold comp_names in Hin.
    apply elem_of_cons in Hin as [Hin | Hin].
    { injection Hin as -> ->. vm_compute. reflexivity. }
    apply elem_of_cons in Hin as [Hin | Hin].
    { injection Hin as -> ->. vm_compute. reflexivity. }
    apply elem_of_cons in Hin as [Hin | Hin]; [| now apply elem_of_nil in Hin].
    injection Hin as -> ->. vm_compute. reflexivity.
Defined.

(** X6.  When the ZCJ field neither parses as a number nor is a grade
    label, every component score that parses has a weight that parses, at
    least one pair has both, and the sum of the weights is zero or
    negative, the resolver returns no score, flagged as estimated, with the
    reason that the total weight is invalid: it does not divide by it. *)
Theorem estimate_total_weight_invalid (row : gmap str pyval) :
  parse_float_safe (get row (u "ZCJ")) = None →
  grade_label (get row (u "ZCJ")) = None →
  (∀ sk wk, (sk, wk) ∈ comp_names →
     is_Some (parse_float_safe (get row sk)) →
     is_Some (parse_float_safe (get row wk))) →
  (∃ sk wk s w, (sk, wk) ∈ comp_names
     ∧ parse_float_safe (get row sk) = Some s
     ∧ parse_float_safe (get row wk) = Some w) →
  fle (comp_total_weight (components row)) (lit 0) = true →
  estimate_zcj_from_row row = (None, true, Total_weight_invalid).
Proof.
  intros Hzcj Hlabel Hall Hany Hle.
  rewrite estimate_unfold, Hzcj, Hlabel, (comp_loop_complete _ _ _ Hall).
  cbn [have_any total_weight weighted_sum orb].
  fold (components row).
  rewrite (bool_decide_eq_true_2 _ (have_any_components row Hany)).
  cbn [negb].
  fold (comp_total_weight (components row)).
  now rewrite Hle.
Qed.

Lemma estimate_total_weight_invalid_witness :
  estimate_zcj_from_row row_weights_cancel = (None, true, Total_weight_invalid).
Proof.
  apply (estimate_total_weight_invalid row_weights_cancel).
  - vm_compute. reflexivity.
  - vm_compute. reflexivity.
  - intros sk wk Hin Hs. unfold comp_names in Hin.
    apply elem_of_cons in Hin as [Hin | Hin].
    { injection Hin as -> ->. exists (lit 50). vm_compute. reflexivity. }
    apply elem_of_cons in Hin as [Hin | Hin].
    { injection Hin as -> ->. exists (lit (-50)). vm_compute. reflexivity. }
    apply elem_of_cons in Hin as [Hin | Hin]; [| now apply elem_of_nil in Hin].
    injection Hin as -> ->. destruct Hs as [s Hs]. vm_compute in Hs. discriminate Hs.
  - exists (u "QMCJ"), (u "QMCJXS"), (lit 90), (lit 50).
    split; [apply (bool_decide_unpack _); vm_compute; exact I |].
    split; vm_compute; reflexivity.
  - vm_compute. reflexivity.
Defined.

(** X7.  The parts of every result of the resolver fit together: a result
    that is not flagged as estimated carries a score and the reason that
    ZCJ was numeric or a grade label; a result without a score is flagged
    as estimated and carries one of the three reasons of failure, a missing
    weight being that of a pair of [comp_names]; an estimated score comes
    with a total weight that is not [<= 0]. *)
Theorem estimate_result_coherent (row : gmap str pyval) :
  result_coherent row (estimate_zcj_from_row row).
Proof.
  rewrite estimate_unfold. unfold result_coherent.
  destruct (parse_float_safe (get row (u "ZCJ"))) as [v|] eqn:Hzcj.
  { split; [reflexivity |]. split; [now exists v | reflexivity]. }
  destruct (grade_label (get row (u "ZCJ"))) as [g|] eqn:Hlabel.
  { split; [reflexivity |]. now exists g. }
  destruct (comp_loop row comp_names _) as [msg | acc] eqn:Hloop.
  { apply comp_loop_inl in Hloop as (sk & wk & -> & Hin). auto. }
  destruct (have_any acc); cbn [negb]; [| auto].
  destruct (fle (total_weight acc) (lit 0)) eqn:Hle; [auto |].
  split; [reflexivity |]. split; [eauto | exact Hle].
Qed.

(** X8.  The resolver reads the row at seven fields only, ZCJ and the three
    pairs of component fields: two rows that agree on these get the same
    result, whatever their other fields hold. *)
Theorem estimate_reads_seven_fields (row1 row2 : gmap str pyval) :
  (∀ k, k ∈ [ u "ZCJ"; u "QMCJ"; u "QMCJXS"; u "PSCJ"; u "PSCJXS";
              u "QZCJ"; u "QZCJXS" ] → get row1 k = get row2 k) →
  estimate_zcj_from_row row1 = estimate_zcj_from_row row2.
Proof. exact (estimate_ext row1 row2). Qed.

Lemma estimate_reads_seven_fields_witness :
  estimate_zcj_from_row row_weights_50 = estimate_zcj_from_row row_weights_50_renamed.
Proof.
  apply (estimate_reads_seven_fields row_weights_50 row_weights_50_renamed).
  intros k Hk.
  repeat (apply elem_of_cons in Hk as [-> | Hk]; [vm_compute; reflexivity |]).
  now apply elem_of_nil in Hk.
Defined.

(** X9.  White space around a ZCJ string does not change the result of the
    resolver: the number, the grade label and the sentinels are looked for
    in the stripped text. *)
Theorem estimate_ignores_white_space (row : gmap str pyval) (a s b : str) :
  Forall (λ c, is_space c = true) a →
  Forall (λ c, is_space c = true) b →
  estimate_zcj_from_row (<[u "ZCJ" := PyStr (a ++ s ++ b)]> row)
  = estimate_zcj_from_row (<[u "ZCJ" := PyStr s]> row).
Proof.
  intros Ha Hb. rewrite !estimate_unfold, !get_insert.
  rewrite (parse_float_safe_spaces a s b Ha Hb).
  cbn [grade_label]. unfold strip at 1.
  rewrite (strip_by_spaces is_space a s b Ha Hb). fold (strip s).
  rewrite (comp_loop_ext (<[u "ZCJ" := PyStr (a ++ s ++ b)]> row)
                         (<[u "ZCJ" := PyStr s]> row)); [reflexivity |].
  intros sk wk Hin. destruct (comp_keys_not_zcj sk wk Hin) as [Hsk Hwk].
  now rewrite !get_insert_ne.
Qed.

Lemma estimate_ignores_white_space_witness :
  estimate_zcj_from_row
    (<[u "ZCJ" := PyStr ([9; 12288]%N ++ u "良" ++ [32; 10]%N)]> row_numeric)
  = estimate_zcj_from_row (<[u "ZCJ" := PyStr (u "良")]> row_numeric).
Proof.
  apply (estimate_ignores_white_space row_numeric [9; 12288]%N (u "良") [32; 10]%N).
  - apply (bool_decide_unpack _). vm_compute. exact I.
  - apply (bool_decide_unpack _). vm_compute. exact I.
Defined.

(** X10.  A course whose ZCJ is a grade label gets, through the resolver
    and then [score_to_gpa], the grade points 4.0 for 优, 3.0 for 良, 2.0
    for 中, 1.0 for 及格 and 0.0 for 不及格. *)
Theorem label_grade_points (row : gmap str pyval) (s : str) (p : Z) :
  get row (u "ZCJ") = PyStr s →
  (strip s, p) ∈ label_points →
  ∃ sc, estimate_zcj_from_row row = (Some sc, false, ZCJ_mapped_from_grade_label)
        ∧ score_to_gpa sc = dec p (-1).
Proof.
  intros Hget Hin.
  assert (∃ g, assoc GRADE_MAP (strip s) = Some g
               ∧ score_to_gpa (lit g) = dec p (-1)) as (g & Hg & Hgpa).
  { revert Hin. generalize (strip s). intros t Hin. unfold label_points in Hin.
    apply elem_of_cons in Hin as [Hin | Hin].
    { injection Hin as -> ->. exists 95. split; vm_compute; reflexivity. }
    apply elem_of_cons in Hin as [Hin | Hin].
    { injection Hin as -> ->. exists 85. split; vm_compute; reflexivity. }
    apply elem_of_cons in Hin as [Hin | Hin].
    { injection Hin as -> ->. exists 75. split; vm_compute; reflexivity. }
    apply elem_of_cons in Hin as [Hin | Hin].
    { injection Hin as -> ->. exists 65. split; vm_compute; reflexivity. }
    apply elem_of_cons in Hin as [Hin | Hin]; [| now apply elem_of_nil in Hin].
    injection Hin as -> ->. exists 55. split; vm_compute; reflexivity. }
  exists (lit g). split; [| exact Hgpa].
  rewrite estimate_unfold, Hget, (parse_float_safe_label s g Hg).
  cbn [grade_label]. now rewrite Hg.
Qed.

Lemma label_grade_points_witness :
  ∃ sc, estimate_zcj_from_row row_label
          = (Some sc, false, ZCJ_mapped_from_grade_label)
        ∧ score_to_gpa sc = dec 30 (-1).
Proof.
  apply (label_grade_points row_label (u " 良 ") 30).
  - vm_compute. reflexivity.
  - apply (bool_decide_unpack _). vm_compute. exact I.
Defined.

(** ** More on the course filter *)

Section OfficialMore.

Implicit Types (r : gmap str pyval) (c : course) (rows : list (gmap str pyval)).

Lemma eq_str_true v s : eq_str v s = true → v = PyStr s.
Proof.
  destruct v as [| | | |t|]; try discriminate. cbn. unfold str_eqb.
  intros H. apply bool_decide_eq_true in H. now subst t.
Qed.

Lemma passed_over_None r : passed_over r → official_course r = None.
Proof.
  intros H. destruct (official_course r) as [c|] eqn:Hc; [| reflexivity].
  exfalso. apply official_course_Some in Hc as (Hcat & Hcr & Hle & Hest & _).
  destruct H as [[H1 H2] | [H | [(x & Hx & Hxle) | H]]].
  - destruct Hcat as [Hcat | Hcat]; congruence.
  - congruence.
  - rewrite Hcr in Hx. injection Hx as <-. congruence.
  - rewrite Hest in H. discriminate H.
Qed.

End OfficialMore.

(** X11.  Every course of the Official set has the type 必修 or 限选, and
    its name and type are the XSKCM and KCXZDM_DISPLAY fields of a row of
    the input. *)
Theorem official_course_type (rows : list (gmap str pyval)) (c : course) :
  c ∈ extract_official_courses rows →
  (type c = PyStr (u "必修") ∨ type c = PyStr (u "限选"))
  ∧ ∃ r, r ∈ rows ∧ name c = get r (u "XSKCM")
         ∧ type c = get r (u "KCXZDM_DISPLAY").
Proof.
  intros Hc. apply extract_official_courses_elem in Hc as (r & Hr & Hc).
  apply official_course_Some in Hc as (Hcat & _ & _ & _ & Hn & Ht).
  split; [| now exists r].
  rewrite Ht. destruct Hcat as [H | H]; [left | right]; now apply eq_str_true.
Qed.

Lemma official_course_type_witness :
  (PyStr (u "必修") = PyStr (u "必修") ∨ PyStr (u "必修") = PyStr (u "限选"))
  ∧ ∃ r, r ∈ [row_904; row_elective] ∧ PyStr (u "概率论") = get r (u "XSKCM")
         ∧ PyStr (u "必修") = get r (u "KCXZDM_DISPLAY").
Proof.
  apply (official_course_type [row_904; row_elective]
    {| name := PyStr (u "概率论"); type := PyStr (u "必修");
       score := dec 904 (-1); credit := lit 3;
       estimated := false; estimate_reason := ZCJ_present_as_numeric |}).
  apply (bool_decide_unpack _). vm_compute. exact I.
Defined.

(** X12.  A row of another category, a row whose credit [float] does not
    read or reads as [<= 0], and a row for which the resolver finds no
    score are passed over without an error: the Official set is the one of
    the other rows, in their order. *)
Theorem official_passes_over (rows1 rows2 : list (gmap str pyval))
    (r : gmap str pyval) :
  passed_over r →
  extract_official_courses (rows1 ++ r :: rows2)
  = extract_official_courses (rows1 ++ rows2).
Proof.
  intros Hr. unfold extract_official_courses.
  rewrite !omap_app. cbn [omap list_omap].
  now rewrite (passed_over_None r Hr).
Qed.

Lemma official_passes_over_witness :
  extract_official_courses ([row_904] ++ row_zero_credit :: [row_label])
  = extract_official_courses ([row_904] ++ [row_label]).
Proof.
  apply (official_passes_over [row_904] [row_label] row_zero_credit).
  right. right. left. exists (lit 0). split; vm_compute; reflexivity.
Defined.

(** ** The core major classifier *)

Section CoreMajor.

Implicit Types (k s p q name pre post : str) (c d : N).

Lemma starts_with_app k q : starts_with k (k ++ q) = true.
Proof. induction k as [|c k IH]; [reflexivity |]. cbn. now rewrite N.eqb_refl. Qed.

Lemma starts_with_spec k s : starts_with k s = true ↔ ∃ q, s = k ++ q.
Proof.
  split.
  - revert s. induction k as [|c k IH]; intros s H; [now exists s |].
    destruct s as [|d s]; [discriminate |]. cbn in H.
    apply andb_prop in H as [Hc Hk]. apply N.eqb_eq in Hc. subst d.
    destruct (IH s Hk) as [q ->]. now exists q.
  - intros [q ->]. apply starts_with_app.
Qed.

(** [k in s] holds exactly when [s] is some text, [k], some text. *)
Lemma contains_spec k s : contains k s = true ↔ ∃ p q, s = p ++ k ++ q.
Proof.
  split.
  - induction s as [|d s IH]; cbn [contains]; intros H.
    + apply orb_prop in H as [H | H]; [| discriminate].
      apply starts_with_spec in H as [q Hq]. now exists [], q.
    + apply orb_prop in H as [H | H].
      * apply starts_with_spec in H as [q Hq]. now exists [], q.
      * destruct (IH H) as (p & q & ->). now exists (d :: p), q.
  - intros (p & q & ->). induction p as [|d p IH].
    + cbn [app]. destruct (k ++ q) eqn:E; cbn [contains];
        rewrite <- E, starts_with_app; reflexivity.
    + cbn [app contains]. rewrite IH. apply orb_true_r.
Qed.

Lemma contains_extend k s pre post :
  contains k s = true → contains k (pre ++ s ++ post) = true.
Proof.
  rewrite !contains_spec. intros (p & q & ->).
  exists (pre ++ p), (q ++ post). now rewrite <- !app_assoc.
Qed.

Lemma lower_app s1 s2 : lower (s1 ++ s2) = lower s1 ++ lower s2.
Proof. apply fmap_app. Qed.

Lemma not_letter_lower c d :
  not_letter c = true → (c =? lower_char d)%N = (c =? d)%N.
Proof.
  unfold not_letter, lower_char. intros Hc. apply negb_true_iff in Hc.
  apply orb_false_elim in Hc as [Hu Hl].
  destruct ((65 <=? d) && (d <=? 90))%N eqn:Hd; [| reflexivity].
  apply andb_prop in Hd as [Hd1 Hd2]. apply N.leb_le in Hd1, Hd2.
  destruct (N.eqb_spec c (d + 32)) as [-> | _].
  - exfalso. apply andb_false_iff in Hl as [Hl | Hl].
    + apply N.leb_gt in Hl. lia.
    + apply N.leb_gt in Hl. lia.
  - symmetry. apply N.eqb_neq. intros ->.
    apply andb_false_iff in Hu as [Hu | Hu]; apply N.leb_gt in Hu; lia.
Qed.

Lemma starts_with_lower k s :
  Forall (λ c, not_letter c = true) k →
  starts_with k (lower s) = starts_with k s.
Proof.
  intros Hk. revert s. induction Hk as [|c k Hc Hk IH]; intros s; [reflexivity |].
  destruct s as [|d s]; [reflexivity |]. cbn.
  now rewrite (not_letter_lower c d Hc), IH.
Qed.

(** A text without letters occurs in a name whatever the case of the
    letters of the name. *)
Lemma contains_lower k s :
  Forall (λ c, not_letter c = true) k →
  contains k (lower s) = contains k s.
Proof.
  intros Hk. induction s as [|d s IH].
  - reflexivity.
  - change (lower (d :: s)) with (lower_char d :: lower s).
    cbn [contains]. rewrite IH. f_equal.
    exact (starts_with_lower k (d :: s) Hk).
Qed.

Lemma excluded_titles_no_letter :
  Forall (λ ex, Forall (λ c, not_letter c = true) ex) EXCLUDE_COURSES.
Proof. apply (bool_decide_unpack _). vm_compute. exact I. Qed.

Lemma excluded_lower name :
  existsb (λ ex, contains ex (lower name)) EXCLUDE_COURSES
  = existsb (λ ex, contains ex name) EXCLUDE_COURSES.
Proof.
  induction excluded_titles_no_letter as [|ex l Hex Hl IH]; [reflexivity |].
  cbn [existsb]. now rewrite (contains_lower ex name Hex), IH.
Qed.

Lemma lower_idemp s : lower (lower s) = lower s.
Proof.
  unfold lower. rewrite <- list_fmap_compose. apply list_fmap_ext.
  intros _ c _. cbn. unfold lower_char.
  destruct ((65 <=? c) && (c <=? 90))%N eqn:Hc; [| now rewrite Hc].
  apply andb_prop in Hc as [H1 H2]. apply N.leb_le in H1, H2.
  destruct (N.leb_spec 65 (c + 32)); [| reflexivity].
  destruct (N.leb_spec (c + 32) 90); [lia | reflexivity].
Qed.

Lemma is_core_major_lower name : is_core_major (lower name) = is_core_major name.
Proof.
  destruct name as [|c name]; [reflexivity |].
  change (lower (c :: name)) with (lower_char c :: lower name).
  unfold is_core_major.
  change (lower_char c :: lower name) with (lower (c :: name)).
  now rewrite excluded_lower, lower_idemp.
Qed.

End CoreMajor.

(** X13.  A name that holds the title of the excluded course is never a
    core major course, whatever stands before and after the title, although
    the title itself holds the keyword 电子. *)
Theorem excluded_course_not_core (pre post : str) :
  is_core_major (pre ++ u "电子信息类专业学习概论" ++ post) = false
  ∧ contains (u "电子") (u "电子信息类专业学习概论") = true.
Proof.
  split; [| vm_compute; reflexivity].
  unfold is_core_major.
  destruct (pre ++ u "电子信息类专业学习概论" ++ post) as [|c s] eqn:E; [reflexivity |].
  rewrite <- E. unfold EXCLUDE_COURSES. cbn [existsb].
  assert (contains (u "电子信息类专业学习概论")
            (pre ++ u "电子信息类专业学习概论" ++ post) = true) as ->; [| reflexivity].
  apply contains_spec. now exists pre, post.
Qed.

(** X14.  The classifier does not look at the case of ASCII letters: two
    names that are equal up to the case of their letters are both core or
    both not. *)
Theorem is_core_major_ignores_case (a b : str) :
  lower a = lower b → is_core_major a = is_core_major b.
Proof.
  intros H. now rewrite <- (is_core_major_lower a), <- (is_core_major_lower b), H.
Qed.

Lemma is_core_major_ignores_case_witness :
  is_core_major (u "Linux操作系统") = is_core_major (u "LINUX操作系统").
Proof.
  apply (is_core_major_ignores_case (u "Linux操作系统") (u "LINUX操作系统")).
  vm_compute. reflexivity.
Defined.

(** X15.  A core major name stays core when text is added before and after
    it, unless the longer name holds the title of an excluded course. *)
Theorem is_core_major_extend (name pre post : str) :
  is_core_major name = true →
  existsb (λ ex, contains ex (pre ++ name ++ post)) EXCLUDE_COURSES = false →
  is_core_major (pre ++ name ++ post) = true.
Proof.
  intros Hcore Hex. unfold is_core_major in *.
  destruct name as [|c name]; [discriminate |].
  destruct (pre ++ (c :: name) ++ post) as [|d s] eqn:E.
  { destruct pre; discriminate E. }
  rewrite Hex, <- E.
  destruct (existsb (λ ex, contains ex (c :: name)) EXCLUDE_COURSES); [discriminate |].
  apply existsb_exists in Hcore as (k & Hk & Hc). apply existsb_exists.
  exists k. split; [exact Hk |].
  rewrite !lower_app. now apply contains_extend.
Qed.

Lemma is_core_major_extend_witness :
  is_core_major (u "模拟" ++ u "电路" ++ u "实验") = true.
Proof.
  apply (is_core_major_extend (u "电路") (u "模拟") (u "实验")).
  - vm_compute. reflexivity.
  - vm_compute. reflexivity.
Defined.

(** ** The grade point average *)

Section GradePointAverage.

Implicit Types (c : course) (courses : list course) (total w : float).



End GradePointAverage.


(** ** What [float] reads, [parse_float_safe] reads *)

Section FloatText.

Implicit Types (s t r w a b : str) (c : N) (p : N → bool).



















End FloatText.



